(** * pkg/storage/ingest/pusher.go: the two-stage batch consumer

    [consume] starts [unmarshalRequests] in a goroutine of its own and runs
    [pushRequests] in the caller's goroutine; the two meet on the unbuffered
    channel [recC].  The development below embeds

    - the data of the file ([record], [parsedRecord], errors, contexts, the
      metrics and the logger of [pusherConsumer]),
    - the body of each loop as an executable function, and
    - the two goroutines as an executable small-step machine driven by a
      schedule, so that every interleaving Go allows is a run of the machine,

    and proves the properties of the batch consumer over all schedules.

    How the code is read:

    - [recordIdx] is a Go [int]; it counts the elements of a slice, so it
      never wraps, and is an integer here.
    - A Prometheus counter is the number of its [Inc] calls; the histogram
      is the list of the durations observed (the code observes their
      [Seconds()], a float; the list keeps the [time.Duration]).
    - The body of the loop of [pushRequests] is one step of the machine.
      Only the caller's goroutine touches the sink, the metrics and the
      log, and the steps of the decoder commute with that step
      ([push_commutes_with_decoder]), so nothing is lost by it.
    - The caller's context can be cancelled by the environment at any
      moment; the derived context is then cancelled with it. *)

From Stdlib Require Import ZArith String Bool Lia List.
From Stdlib Require Import Strings.Byte.
Import ListNotations.

Set Implicit Arguments.

(** ** Data *)

(** Modelled from the spec: the type [record] of the elements of the batch
    is declared outside pusher.go, which reads its fields [tenantID] and
    [content]; the data model of the specification gives it as a tenant id
    and opaque content bytes. *)
Module record.
Record t : Type := mk { tenantID : string; content : list byte }.
End record.

(** Go's [context.Context] as the chain of derivations this file builds:
    the caller's context, [context.WithCancelCause] and [user.InjectOrgID]. *)
Inductive context (Ctx : Type) : Type :=
| Caller (c : Ctx)
| WithCancelCause (parent : context Ctx)
| InjectOrgID (parent : context Ctx) (orgID : string).

Arguments Caller {Ctx} c.
Arguments WithCancelCause {Ctx} parent.
Arguments InjectOrgID {Ctx} parent orgID.

(** [user.ExtractOrgID]: the innermost injected tenant wins. *)
Fixpoint ExtractOrgID {Ctx} (ctx : context Ctx) : option string :=
  match ctx with
  | Caller _ => None
  | WithCancelCause parent => ExtractOrgID parent
  | InjectOrgID _ orgID => Some orgID
  end.

(** Go's [error] values as far as this file builds them: an error of a
    collaborator, [errors.Wrap(err, message)], and the
    [fmt.Errorf("consuming record at index %d for tenant %s: %w", ...)]
    of [pushRequests]. *)
Inductive error (E : Type) : Type :=
| Cause (e : E)
| Wrap (err : error E) (message : string)
| ErrorfConsuming (recordIdx : Z) (tenantID : string) (err : error E).

Arguments Cause {E} e.
Arguments Wrap {E} err message.
Arguments ErrorfConsuming {E} recordIdx tenantID err.

(** [errors.Unwrap], iterated to the innermost cause. *)
Fixpoint rootCause {E} (err : error E) : E :=
  match err with
  | Cause e => e
  | Wrap err' _ => rootCause err'
  | ErrorfConsuming _ _ err' => rootCause err'
  end.

(** The reason a context was cancelled with ([context.Cause]). *)
Inductive cancelCause : Type :=
| ParentCanceled                      (* the caller's context was cancelled *)
| DoneConsumingRecords.               (* cancellation.NewErrorf("done consuming records") *)

(** go-kit log entries: a level and the key/values of the [Log] call. *)
Inductive logLevel : Type := LevelError | LevelWarn.

Inductive logValue (E : Type) : Type :=
| VStr (s : string)
| VErr (e : error E).

Arguments VStr {E} s.
Arguments VErr {E} e.

Record logEntry (E : Type) : Type :=
  { lvl : logLevel; keyvals : list (string * logValue E) }.

Section Ingest.

(** *** Collaborators

    [mimirpb.WriteRequest] and its [Unmarshal], the [Pusher] behind
    [c.p], the wall clock, [mimirpb.IsClientError] and [shouldLog] are
    not defined in this file; they are parameters of the development. *)

Variable Ctx : Type.           (* the caller's context *)
Variable E : Type.             (* errors raised by collaborators *)
Variable WriteRequest : Type.  (* mimirpb.WriteRequest *)
Variable Env : Type.           (* the storage behind [c.p] and the clock *)

(** [(&mimirpb.WriteRequest{}).Unmarshal(content)]: the request as the call
    leaves it, and the error it returns. *)
Variable Unmarshal : list byte -> WriteRequest * option (error E).

(** [c.p.PushToStorage(ctx, wr)]: the error it returns and the environment
    it leaves.  Nothing is assumed of it; in particular a sink that gives up
    when [ctx] is cancelled is one of these functions. *)
Variable PushToStorage :
  context Ctx -> WriteRequest -> Env -> option (error E) * Env.

(** [time.Now()], as nanoseconds of the monotonic clock; the clock is part
    of the environment, so [time.Since(processingStart)] is the difference
    of the clock after and before the push. *)
Variable now : Env -> Z.

(** [mimirpb.IsClientError(err)]. *)

Variable IsClientError : error E -> bool.

(** [shouldLog(ctx, err, duration)], the policy that decides whether a
    client error is worth a warning. *)
Variable shouldLog : context Ctx -> error E -> Z -> bool.

(** [parsedRecord]; [payload] is the embedded [*mimirpb.WriteRequest]. *)
Record parsedRecord : Type :=
  { payload : WriteRequest; tenantID : string; err : option (error E) }.

(** One invocation of [PushToStorage] as the sink saw it, with what it
    returned and the time the consumer measured around it. *)
Record pushCall : Type :=
  { callCtx : context Ctx;
    callReq : WriteRequest;
    callErr : option (error E);
    callElapsed : Z }.

(** What a run of [consume] acts on: the environment, the history of the
    pushes (kept to state the properties), and the fields of
    [pusherConsumer]: the histogram (its observations in order, the
    [time.Duration] observed standing for its [Seconds()]), the three
    counters (number of [Inc] calls) and what was written to logger [l]. *)
Record world : Type :=
  { env : Env;
    pushed : list pushCall;
    processingTimeSeconds : list Z;
    clientErrRequests : nat;
    serverErrRequests : nat;
    totalRequests : nat;
    l : list (logEntry E) }.

(** *** Effects of the consumer, as a state monad over [world] *)

Definition M (A : Type) : Type := world -> A * world.

Definition ret {A} (a : A) : M A := fun w => (a, w).

Definition bind {A B} (m : M A) (k : A -> M B) : M B :=
  fun w => let (a, w') := m w in k a w'.

Notation "x <- m ;; k" := (bind m (fun x => k))
  (at level 61, m at next level, right associativity).
Notation "m ;;; k" := (bind m (fun _ => k))
  (at level 61, right associativity).

Definition timeNow : M Z := fun w => (now (env w), w).

Definition callPushToStorage (ctx : context Ctx) (wr : WriteRequest)
  : M (option (error E)) :=
  fun w =>
    let (res, env') := PushToStorage ctx wr (env w) in
    (res, {| env := env'; pushed := pushed w;
             processingTimeSeconds := processingTimeSeconds w;
             clientErrRequests := clientErrRequests w;
             serverErrRequests := serverErrRequests w;
             totalRequests := totalRequests w; l := l w |}).

(** Ghost step: append the finished call to the history. *)
Definition notePush (c : pushCall) : M unit :=
  fun w =>
    (tt, {| env := env w; pushed := pushed w ++ [c];
            processingTimeSeconds := processingTimeSeconds w;
            clientErrRequests := clientErrRequests w;
            serverErrRequests := serverErrRequests w;
            totalRequests := totalRequests w; l := l w |}).

Definition Observe (d : Z) : M unit :=
  fun w =>
    (tt, {| env := env w; pushed := pushed w;
            processingTimeSeconds := processingTimeSeconds w ++ [d];
            clientErrRequests := clientErrRequests w;
            serverErrRequests := serverErrRequests w;
            totalRequests := totalRequests w; l := l w |}).

Definition Inc_totalRequests : M unit :=
  fun w =>
    (tt, {| env := env w; pushed := pushed w;
            processingTimeSeconds := processingTimeSeconds w;
            clientErrRequests := clientErrRequests w;
            serverErrRequests := serverErrRequests w;
            totalRequests := S (totalRequests w); l := l w |}).

Definition Inc_serverErrRequests : M unit :=
  fun w =>
    (tt, {| env := env w; pushed := pushed w;
            processingTimeSeconds := processingTimeSeconds w;
            clientErrRequests := clientErrRequests w;
            serverErrRequests := S (serverErrRequests w);
            totalRequests := totalRequests w; l := l w |}).

Definition Inc_clientErrRequests : M unit :=
  fun w =>
    (tt, {| env := env w; pushed := pushed w;
            processingTimeSeconds := processingTimeSeconds w;
            clientErrRequests := S (clientErrRequests w);
            serverErrRequests := serverErrRequests w;
            totalRequests := totalRequests w; l := l w |}).

Definition Log (e : logEntry E) : M unit :=
  fun w =>
    (tt, {| env := env w; pushed := pushed w;
            processingTimeSeconds := processingTimeSeconds w;
            clientErrRequests := clientErrRequests w;
            serverErrRequests := serverErrRequests w;
            totalRequests := totalRequests w; l := l w ++ [e] |}).

(** The two log lines of [pushRequests]. *)
Definition parseFailedEntry (e : error E) : logEntry E :=
  {| lvl := LevelError;
     keyvals := [("msg"%string,
                  VStr "failed to parse write request; skipping"%string);
                 ("err"%string, VErr e)] |}.

Definition clientErrorEntry (e : error E) (tenant : string) : logEntry E :=
  {| lvl := LevelWarn;
     keyvals := [("msg"%string,
                  VStr "detected a client error while ingesting write request (the request may have been partially ingested)"%string);
                 ("err"%string, VErr e);
                 ("user"%string, VStr tenant)] |}.

(** *** [unmarshalRequests]: the body of its loop, up to the [select] *)

Definition parseRecord (r : record.t) : parsedRecord :=
  let (wr, e) := Unmarshal (record.content r) in
  {| payload := wr;
     tenantID := record.tenantID r;
     err := match e with
            | Some e' =>
                Some (Wrap e' "parsing ingest consumer write request"%string)
            | None => None
            end |}.

(** [unmarshalRequests] as a whole: the units it sends on [recC] when it
    runs to the end of the batch, one per record and in order. *)
Definition unmarshalRequests (records : list record.t) : list parsedRecord :=
  map parseRecord records.

(** *** [pushRequests]: one iteration of [for wr := range reqC]

    The result is the new [recordIdx] and [Some e] when the iteration
    leaves the function with [return e], [None] when the loop goes on. *)

Definition iteration (ctx : context Ctx) (recordIdx : Z) (wr : parsedRecord)
  : M (Z * option (error E)) :=
  let recordIdx := (recordIdx + 1)%Z in
  match err wr with
  | Some e =>
      Log (parseFailedEntry e) ;;;
      ret (recordIdx, None)
  | None =>
      processingStart <- timeNow ;;
      let ctx' := InjectOrgID ctx (tenantID wr) in
      res <- callPushToStorage ctx' (payload wr) ;;
      finish <- timeNow ;;
      let processingElapsedTime := (finish - processingStart)%Z in
      notePush {| callCtx := ctx'; callReq := payload wr;
                  callErr := res; callElapsed := processingElapsedTime |} ;;;
      Observe processingElapsedTime ;;;
      Inc_totalRequests ;;;
      match res with
      | None => ret (recordIdx, None)
      | Some e =>
          if negb (IsClientError e) then
            Inc_serverErrRequests ;;;
            ret (recordIdx,
                 Some (ErrorfConsuming recordIdx (tenantID wr) e))
          else
            Inc_clientErrRequests ;;;
            (if shouldLog ctx' e processingElapsedTime
             then Log (clientErrorEntry e (tenantID wr))
             else ret tt) ;;;
            ret (recordIdx, None)
      end
  end.

(** [pushRequests] over the sequence of values that [reqC] delivers before
    it is closed. *)
Fixpoint rangeLoop (ctx : context Ctx) (recordIdx : Z)
         (reqC : list parsedRecord) : M (Z * option (error E)) :=
  match reqC with
  | [] => ret (recordIdx, None)
  | wr :: rest =>
      r <- iteration ctx recordIdx wr ;;
      match snd r with
      | Some e => ret r
      | None => rangeLoop ctx (fst r) rest
      end
  end.

Definition pushRequests (ctx : context Ctx) (reqC : list parsedRecord)
  : M (option (error E)) :=
  r <- rangeLoop ctx (-1)%Z reqC ;; ret (snd r).

(** ** The two goroutines of [consume]

    Each goroutine is at one of a few program points; [recC] is unbuffered,
    so a send and the receive that takes it are one joint step. *)

(** [unmarshalRequests]. *)
Inductive decoderPC : Type :=
| DLoop (records : list record.t)
    (* at the head of [for _, record := range records], these left *)
| DSelect (pRecord : parsedRecord) (records : list record.t)
    (* in the [select], offering [pRecord] *)
| DReturned.
    (* returned; the deferred [close(recC)] has run *)

(** The caller's goroutine: [pushRequests], then the return of [consume]. *)
Inductive consumerPC : Type :=
| PRange (recordIdx : Z)
    (* waiting in [for wr := range reqC] *)
| PBody (recordIdx : Z) (wr : parsedRecord)
    (* received [wr], about to run the body of the loop *)
| PReturned (res : option (error E))
    (* [pushRequests] has returned [res] *)
| CReturned (res : option (error E)).
    (* [consume] has returned [res]; the deferred [cancel] has run *)

Record state : Type :=
  { decoder : decoderPC;
    consumer : consumerPC;
    recC_closed : bool;
    recC_sent : list parsedRecord;     (* every value passed over [recC] *)
    ctxCause : option cancelCause;     (* the derived context; [None]: live *)
    W : world }.

(** What the scheduler and the environment may pick next. *)
Inductive choice : Type :=
| DecUnmarshal    (* decoder: next record, unmarshalled, up to the select *)
| DecExhausted    (* decoder: no record left; return, closing [recC] *)
| DecDone         (* decoder: the select takes [<-done]; return, closing *)
| Handoff         (* the select takes [recC <- pRecord], the range gets it *)
| RangeClosed     (* pusher: the range finds [recC] closed *)
| PushBody        (* pusher: the body of the loop for the unit received *)
| ConsumeReturn   (* [consume] returns; the deferred [cancel] runs *)
| ParentCancel.   (* environment: the caller's context is cancelled *)

(** [cancel(cause)] on a context: the first cause stays. *)
Definition cancelWith (c : cancelCause) (cur : option cancelCause)
  : option cancelCause :=
  match cur with
  | None => Some c
  | Some c' => Some c'
  end.

(** ** Reading a run: what the sink and the observability signals saw *)

Definition decoded (u : parsedRecord) : bool :=
  match err u with
  | None => true
  | Some _ => false
  end.

(** The decode errors carried by a sequence of units, in order. *)
Definition decodeErrors (us : list parsedRecord) : list (error E) :=
  flat_map (fun u => match err u with
                     | Some e => [e]
                     | None => []
                     end) us.

(** The arguments of a push: the context and the request. *)
Definition callArgs (c : pushCall) : context Ctx * WriteRequest :=
  (callCtx c, callReq c).

(** The arguments [pushRequests] builds for a unit. *)
Definition unitArgs (ctx : context Ctx) (u : parsedRecord)
  : context Ctx * WriteRequest :=
  (InjectOrgID ctx (tenantID u), payload u).

Definition clientCall (c : pushCall) : bool :=
  match callErr c with
  | Some e => IsClientError e
  | None => false
  end.

Definition serverCall (c : pushCall) : bool :=
  match callErr c with
  | Some e => negb (IsClientError e)
  | None => false
  end.

Definition failedCall (c : pushCall) : bool :=
  match callErr c with
  | Some _ => true
  | None => false
  end.

(** The warning a finished push leads to, if any. *)
Definition warnings (c : pushCall) : list (logEntry E) :=
  match callErr c, ExtractOrgID (callCtx c) with
  | Some e, Some tenant =>
      if IsClientError e && shouldLog (callCtx c) e (callElapsed c)
      then [clientErrorEntry e tenant]
      else []
  | _, _ => []
  end.

Definition atLevel (lv : logLevel) (e : logEntry E) : bool :=
  match lv, lvl e with
  | LevelError, LevelError | LevelWarn, LevelWarn => true
  | _, _ => false
  end.

(** [effects ctx us w w' calls]: going from [w] to [w'] the consumer ran
    the body of its loop once for each unit of [us], in order, and
    [calls] are the pushes it made. *)
Record effects (ctx : context Ctx) (us : list parsedRecord)
       (w w' : world) (calls : list pushCall) : Prop :=
  { eff_pushed : pushed w' = pushed w ++ calls;
    eff_args : map callArgs calls = map (unitArgs ctx) (filter decoded us);
    eff_observed :
      processingTimeSeconds w' =
      processingTimeSeconds w ++ map callElapsed calls;
    eff_total : totalRequests w' = totalRequests w + length calls;
    eff_client :
      clientErrRequests w' =
      clientErrRequests w + length (filter clientCall calls);
    eff_server :
      serverErrRequests w' =
      serverErrRequests w + length (filter serverCall calls);
    eff_errors :
      filter (atLevel LevelError) (l w') =
      filter (atLevel LevelError) (l w)
        ++ map parseFailedEntry (decodeErrors us);
    eff_warnings :
      filter (atLevel LevelWarn) (l w') =
      filter (atLevel LevelWarn) (l w) ++ flat_map warnings calls;
    eff_sink :
      Forall (fun c => exists e : Env,
                  callErr c = fst (PushToStorage (callCtx c) (callReq c) e))
             calls }.

(** ** The machine of [consume] *)

Section Consume.

Variable ctx : context Ctx.          (* the [ctx] argument of [consume] *)
Variable records : list record.t.    (* the batch *)
Variable w0 : world.                 (* the world [consume] starts in *)

(** [ctx, cancel := context.WithCancelCause(ctx)] *)
Definition derived : context Ctx := WithCancelCause ctx.

(** One step of the machine: [Some] of the next state when [c] is enabled
    in [s].  The decoder's select may take [<-done] whenever the derived
    context is cancelled and [recC <- pRecord] whenever the pusher waits in
    its range; when both hold Go picks either, and so may the schedule. *)
Definition step (c : choice) (s : state) : option state :=
  match c with
  | DecUnmarshal =>
      match decoder s with
      | DLoop (r :: rest) =>
          Some {| decoder := DSelect (parseRecord r) rest;
                  consumer := consumer s;
                  recC_closed := recC_closed s;
                  recC_sent := recC_sent s;
                  ctxCause := ctxCause s; W := W s |}
      | _ => None
      end
  | DecExhausted =>
      match decoder s with
      | DLoop [] =>
          Some {| decoder := DReturned;
                  consumer := consumer s;
                  recC_closed := true;
                  recC_sent := recC_sent s;
                  ctxCause := ctxCause s; W := W s |}
      | _ => None
      end
  | DecDone =>
      match decoder s, ctxCause s with
      | DSelect _ _, Some _ =>
          Some {| decoder := DReturned;
                  consumer := consumer s;
                  recC_closed := true;
                  recC_sent := recC_sent s;
                  ctxCause := ctxCause s; W := W s |}
      | _, _ => None
      end
  | Handoff =>
      match decoder s, consumer s with
      | DSelect pRecord rest, PRange recordIdx =>
          Some {| decoder := DLoop rest;
                  consumer := PBody recordIdx pRecord;
                  recC_closed := recC_closed s;
                  recC_sent := recC_sent s ++ [pRecord];
                  ctxCause := ctxCause s; W := W s |}
      | _, _ => None
      end
  | RangeClosed =>
      match consumer s, recC_closed s with
      | PRange _, true =>
          Some {| decoder := decoder s;
                  consumer := PReturned None;
                  recC_closed := recC_closed s;
                  recC_sent := recC_sent s;
                  ctxCause := ctxCause s; W := W s |}
      | _, _ => None
      end
  | PushBody =>
      match consumer s with
      | PBody recordIdx wr =>
          let (r, w') := iteration derived recordIdx wr (W s) in
          Some {| decoder := decoder s;
                  consumer := match snd r with
                              | Some e => PReturned (Some e)
                              | None => PRange (fst r)
                              end;
                  recC_closed := recC_closed s;
                  recC_sent := recC_sent s;
                  ctxCause := ctxCause s; W := w' |}
      | _ => None
      end
  | ConsumeReturn =>
      match consumer s with
      | PReturned res =>
          Some {| decoder := decoder s;
                  consumer := CReturned res;
                  recC_closed := recC_closed s;
                  recC_sent := recC_sent s;
                  ctxCause := cancelWith DoneConsumingRecords (ctxCause s);
                  W := W s |}
      | _ => None
      end
  | ParentCancel =>
      match ctxCause s with
      | None =>
          Some {| decoder := decoder s;
                  consumer := consumer s;
                  recC_closed := recC_closed s;
                  recC_sent := recC_sent s;
                  ctxCause := Some ParentCanceled; W := W s |}
      | Some _ => None
      end
  end.

(** A run under a schedule; [None] when the schedule asks for a step
    that is not enabled. *)
Fixpoint run (cs : list choice) (s : state) : option state :=
  match cs with
  | [] => Some s
  | c :: cs' =>
      match step c s with
      | Some s' => run cs' s'
      | None => None
      end
  end.

(** [consume(ctx, records)] at its first line: the channel made, the
    context derived, the decoder goroutine started. *)
Definition consume (records : list record.t) (w : world) : state :=
  {| decoder := DLoop records;
     consumer := PRange (-1)%Z;
     recC_closed := false;
     recC_sent := [];
     ctxCause := None;
     W := w |}.

(** The value [consume] has returned, if it has. *)
Definition returned (s : state) : option (option (error E)) :=
  match consumer s with
  | CReturned res => Some res
  | _ => None
  end.

(** Both goroutines are finished. *)
Definition finished (s : state) : bool :=
  match decoder s, consumer s with
  | DReturned, CReturned _ => true
  | _, _ => false
  end.

(** The schedule never lets the environment cancel the caller's
    context. *)
Definition uncancelled (cs : list choice) : Prop := ~ In ParentCancel cs.

(** The number of steps a state can still take is at most its weight. *)
Definition weight (s : state) : nat :=
  match decoder s with
  | DLoop rest => 3 * length rest + 1
  | DSelect _ rest => 3 * length rest + 3
  | DReturned => 0
  end
  + match consumer s with
    | PRange _ => 3
    | PBody _ _ => 4
    | PReturned _ => 2
    | CReturned _ => 0
    end
  + match ctxCause s with
    | None => 1
    | Some _ => 0
    end.

(** A scheduler that leaves the caller's context alone: the step it
    takes in [s], [None] when both goroutines are finished. *)
Definition next (s : state) : option choice :=
  match consumer s, decoder s with
  | PBody _ _, _ => Some PushBody
  | PReturned _, _ => Some ConsumeReturn
  | PRange _, DLoop [] => Some DecExhausted
  | PRange _, DLoop (_ :: _) => Some DecUnmarshal
  | PRange _, DSelect _ _ => Some Handoff
  | PRange _, DReturned => Some RangeClosed
  | CReturned _, DLoop [] => Some DecExhausted
  | CReturned _, DLoop (_ :: _) => Some DecUnmarshal
  | CReturned _, DSelect _ _ => Some DecDone
  | CReturned _, DReturned => None
  end.

(** The schedule [next] produces from [s], at most [fuel] steps of it. *)
Fixpoint finish (fuel : nat) (s : state) : list choice :=
  match fuel with
  | O => []
  | S fuel' =>
      match next s with
      | Some c =>
          match step c s with
          | Some s' => c :: finish fuel' s'
          | None => []
          end
      | None => []
      end
  end.

(** *** Reading a state of the machine *)

(** The records not yet handed over. *)
Definition remaining (s : state) : list record.t :=
  skipn (length (recC_sent s)) records.

Record Inv (s : state) : Prop :=
  { inv_sent :
      recC_sent s =
      map parseRecord (firstn (length (recC_sent s)) records);
    inv_decoder :
      match decoder s with
      | DLoop rest =>
          rest = remaining s /\ recC_closed s = false
      | DSelect pRecord rest =>
          (exists r, remaining s = r :: rest /\ pRecord = parseRecord r)
          /\ recC_closed s = false
      | DReturned =>
          recC_closed s = true /\
          (remaining s = [] \/ ctxCause s <> None)
      end;
    inv_consumer :
      match consumer s with
      | PRange i =>
          rangeLoop derived (-1)%Z (recC_sent s) w0
          = ((i, None), W s)
      | PBody i wr =>
          exists h, recC_sent s = h ++ [wr] /\
            rangeLoop derived (-1)%Z h w0 = ((i, None), W s)
      | PReturned None | CReturned None =>
          recC_closed s = true /\
          (exists i, rangeLoop derived (-1)%Z (recC_sent s) w0
                     = ((i, None), W s)) /\
          (remaining s = [] \/ ctxCause s = Some ParentCanceled)
      | PReturned (Some e) | CReturned (Some e) =>
          exists h wr i w1,
            recC_sent s = h ++ [wr] /\
            rangeLoop derived (-1)%Z h w0 = ((i, None), w1) /\
            iteration derived i wr w1
            = (((i + 1)%Z, Some e), W s)
      end;
    inv_cause :
      match consumer s with
      | CReturned _ => ctxCause s <> None
      | _ => ctxCause s <> Some DoneConsumingRecords
      end }.



(** The record unmarshals without error. *)
Definition decodes (r : record.t) : bool := decoded (parseRecord r).

(** The arguments of the push of a record: the derived context with the
    tenant of the record injected, and the request unmarshalled from it. *)
Definition pushArgs (r : record.t) : context Ctx * WriteRequest :=
  (InjectOrgID (WithCancelCause ctx) (record.tenantID r),
   fst (Unmarshal (record.content r))).

(** The units the body of the loop has run for. *)
Definition processed (s : state) : list parsedRecord :=
  match consumer s with
  | PBody _ _ => removelast (recC_sent s)
  | _ => recC_sent s
  end.

(** The records whose units the pusher has received. *)
Definition received (s : state) : list record.t :=
  firstn (length (recC_sent s)) records.

(** The pushes made since [consume] was called. *)
Definition calls (s : state) : list pushCall :=
  skipn (length (pushed w0)) (pushed (W s)).

(** What [pushRequests] has returned, if it has. *)
Definition outcome (s : state) : option (option (error E)) :=
  match consumer s with
  | PReturned res | CReturned res => Some res
  | _ => None
  end.

(** ** Properties of the loop of [pushRequests] *)

Section LoopProperties.

Variable cx : context Ctx.


Lemma effects_nil (w : world) : effects cx [] w w [].
Proof.
  constructor; simpl; rewrite ?app_nil_r; auto.
Qed.

Lemma effects_app (us1 us2 : list parsedRecord) (w w1 w2 : world)
      (c1 c2 : list pushCall) :
  effects cx us1 w w1 c1 ->
  effects cx us2 w1 w2 c2 ->
  effects cx (us1 ++ us2) w w2 (c1 ++ c2).
Proof.
  intros [H1 H2 H3 H4 H5 H6 H7 H8 H9] [K1 K2 K3 K4 K5 K6 K7 K8 K9].
  constructor.
  - rewrite K1, H1, app_assoc; reflexivity.
  - rewrite filter_app, !map_app, H2, K2; reflexivity.
  - rewrite K3, H3, map_app, app_assoc; reflexivity.
  - rewrite K4, H4, length_app; lia.
  - rewrite K5, H5, filter_app, length_app; lia.
  - rewrite K6, H6, filter_app, length_app; lia.
  - unfold decodeErrors in *.
    rewrite K7, H7, flat_map_app, map_app, app_assoc; reflexivity.
  - rewrite K8, H8, flat_map_app, app_assoc; reflexivity.
  - apply Forall_app; split; assumption.
Qed.

(** One run of the body of the loop, whatever its outcome. *)
Lemma iteration_effects (i : Z) (u : parsedRecord) (w : world) :
  exists calls,
    effects cx [u] w (snd (iteration cx i u w)) calls /\
    fst (fst (iteration cx i u w)) = (i + 1)%Z /\
    match err u with
    | Some _ => calls = [] /\ snd (fst (iteration cx i u w)) = None
    | None =>
        exists c, calls = [c] /\
          snd (fst (iteration cx i u w)) =
          match callErr c with
          | Some e =>
              if IsClientError e then None
              else Some (ErrorfConsuming (i + 1)%Z (tenantID u) e)
          | None => None
          end
    end.
Proof.
  unfold iteration, bind, ret, timeNow, callPushToStorage, notePush,
    Observe, Inc_totalRequests, Inc_serverErrRequests,
    Inc_clientErrRequests, Log.
  destruct (err u) as [e|] eqn:Hu.
  - exists []. simpl. split; [|auto].
    constructor; simpl; unfold decoded, decodeErrors; simpl;
      rewrite ?Hu, ?app_nil_r, ?filter_app; simpl;
      rewrite ?app_nil_r; auto.
  - simpl.
    destruct (PushToStorage (InjectOrgID cx (tenantID u)) (payload u)
                            (env w)) as [res env'] eqn:Hp.
    simpl.
    set (c := {| callCtx := InjectOrgID cx (tenantID u);
                 callReq := payload u;
                 callErr := res;
                 callElapsed := (now env' - now (env w))%Z |}).
    exists [c].
    assert (Hsink : Forall (fun c0 => exists e : Env,
                callErr c0 =
                fst (PushToStorage (callCtx c0) (callReq c0) e)) [c]).
    { constructor; [|constructor]. exists (env w). simpl.
      rewrite Hp. reflexivity. }
    destruct res as [e|]; simpl.
    + destruct (IsClientError e) eqn:Hc; simpl.
      * destruct (shouldLog (InjectOrgID cx (tenantID u)) e
                            (now env' - now (env w))) eqn:Hs; simpl.
        -- split; [|split; [reflexivity|]].
           ++ constructor; simpl; auto;
                unfold decoded, decodeErrors, clientCall, serverCall,
                  warnings, callArgs, unitArgs; simpl;
                rewrite ?Hu, ?Hc, ?Hs, ?filter_app, ?app_nil_r; simpl;
                rewrite ?app_nil_r; auto; lia.
           ++ exists c. simpl. rewrite Hc. auto.
        -- split; [|split; [reflexivity|]].
           ++ constructor; simpl; auto;
                unfold decoded, decodeErrors, clientCall, serverCall,
                  warnings, callArgs, unitArgs; simpl;
                rewrite ?Hu, ?Hc, ?Hs, ?filter_app, ?app_nil_r; simpl;
                rewrite ?app_nil_r; auto; lia.
           ++ exists c. simpl. rewrite Hc. auto.
      * split; [|split; [reflexivity|]].
        -- constructor; simpl; auto;
             unfold decoded, decodeErrors, clientCall, serverCall,
               warnings, callArgs, unitArgs; simpl;
             rewrite ?Hu, ?Hc, ?filter_app, ?app_nil_r; simpl;
             rewrite ?app_nil_r; auto; lia.
        -- exists c. simpl. rewrite Hc. auto.
    + split; [|split; [reflexivity|]].
      * constructor; simpl; auto;
          unfold decoded, decodeErrors, clientCall, serverCall,
            warnings, callArgs, unitArgs; simpl;
          rewrite ?Hu, ?filter_app, ?app_nil_r; simpl;
          rewrite ?app_nil_r; auto; lia.
      * exists c. simpl. auto.
Qed.

Lemma rangeLoop_snoc (h : list parsedRecord) (wr : parsedRecord) :
  forall (i j : Z) (w w1 : world),
    rangeLoop cx i h w = ((j, None), w1) ->
    rangeLoop cx i (h ++ [wr]) w = iteration cx j wr w1.
Proof.
  induction h as [|u h IH]; intros i j w w1 H; simpl in *.
  - unfold ret in H. inversion H; subst.
    unfold bind, ret.
    destruct (iteration cx j wr w1) as [[j' [e|]] w'];
      simpl; reflexivity.
  - unfold bind in *.
    destruct (iteration cx i u w) as [[i' [e|]] w'] eqn:Hit;
      simpl in *.
    + unfold ret in H. inversion H.
    + apply IH with (1 := H).
Qed.

(** A loop that ran to the end of [us] ran the body once per unit and no
    push failed for a reason of the server. *)
Lemma rangeLoop_effects (us : list parsedRecord) :
  forall (i j : Z) (w w' : world),
    rangeLoop cx i us w = ((j, None), w') ->
    j = (i + Z.of_nat (length us))%Z /\
    exists calls,
      effects cx us w w' calls /\
      Forall (fun c => serverCall c = false) calls.
Proof.
  induction us as [|u us IH]; intros i j w w' H; simpl in *.
  - unfold ret in H. inversion H; subst. split; [lia|].
    exists []. split; [apply effects_nil | constructor].
  - unfold bind in H.
    destruct (iteration_effects i u w) as (c1 & Heff & Hidx & Hres).
    destruct (iteration cx i u w) as [[i' o] w1] eqn:Hit.
    simpl in *. subst i'.
    destruct o as [e|]; [unfold ret in H; inversion H|].
    destruct (IH _ _ _ _ H) as (Hj & c2 & Heff2 & Hns).
    split; [lia|].
    exists (c1 ++ c2). split.
    + change (u :: us) with ([u] ++ us).
      eapply effects_app; eassumption.
    + apply Forall_app; split; [|assumption].
      destruct (err u).
      * destruct Hres as [-> _]. constructor.
      * destruct Hres as (c & -> & Hc).
        constructor; [|constructor].
        unfold serverCall.
        destruct (callErr c) as [e|]; [|reflexivity].
        destruct (IsClientError e); [reflexivity|discriminate].
Qed.

End LoopProperties.

(** ** Properties of the machine *)



(** *** Lists: the records handed over and the records left *)

Lemma skipn_cons_firstn {A} (n : nat) :
  forall (xs rest : list A) (x : A),
    skipn n xs = x :: rest ->
    firstn (S n) xs = firstn n xs ++ [x] /\
    skipn (S n) xs = rest /\
    (n < length xs)%nat.
Proof.
  induction n as [|n IH]; intros xs rest x H.
  - destruct xs as [|y xs]; simpl in *; [discriminate|].
    inversion H; subst. repeat split; simpl; lia.
  - destruct xs as [|y xs]; simpl in H; [discriminate|].
    destruct (IH _ _ _ H) as (H1 & H2 & H3).
    repeat split.
    + change (firstn (S (S n)) (y :: xs))
        with (y :: firstn (S n) xs).
      rewrite H1. reflexivity.
    + exact H2.
    + simpl. lia.
Qed.

Lemma skipn_nil_firstn {A} (n : nat) (xs : list A) :
  skipn n xs = [] -> firstn n xs = xs.
Proof.
  intros H. rewrite <- (firstn_skipn n xs) at 2.
  rewrite H, app_nil_r. reflexivity.
Qed.

(** *** The invariant of the machine *)


Lemma Inv_consume : Inv (consume records w0).
Proof.
  constructor; simpl; auto; try discriminate.
Qed.

Lemma Inv_step (c : choice) (s s' : state) :
  Inv s -> step c s = Some s' -> Inv s'.
Proof.
  intros [Hs Hd Hc Hk] Hstep.
  unfold remaining in *.
  destruct c; simpl in Hstep.
  - (* DecUnmarshal *)
    destruct (decoder s) as [[|r rest]| |] eqn:Hdec; try discriminate.
    inversion Hstep; subst s'; clear Hstep.
    constructor; unfold remaining; simpl; auto.
    destruct Hd as [Hd1 Hd2]. split; [|assumption].
    exists r. split; auto.
  - (* DecExhausted *)
    destruct (decoder s) as [[|r rest]| |] eqn:Hdec; try discriminate.
    inversion Hstep; subst s'; clear Hstep.
    destruct Hd as [Hd1 Hd2].
    constructor; unfold remaining; simpl; auto.
    destruct (consumer s) as [i|i wr|[e|]|[e|]]; auto.
    + destruct Hc as (Hcl & _). congruence.
    + destruct Hc as (Hcl & _). congruence.
  - (* DecDone *)
    destruct (decoder s) as [rest|p rest|] eqn:Hdec; try discriminate.
    destruct (ctxCause s) as [cc|] eqn:Hcc; try discriminate.
    inversion Hstep; subst s'; clear Hstep.
    destruct Hd as [Hd1 Hd2].
    constructor; unfold remaining; simpl; auto.
    + split; [reflexivity|]. right. discriminate.
    + destruct (consumer s) as [i|i wr|[e|]|[e|]]; auto.
      * destruct Hc as (Hcl & _). congruence.
      * destruct Hc as (Hcl & _). congruence.
  - (* Handoff *)
    destruct (decoder s) as [rest|p rest|] eqn:Hdec; try discriminate.
    destruct (consumer s) as [i|i wr|res|res] eqn:Hcon;
      try discriminate.
    inversion Hstep; subst s'; clear Hstep.
    destruct Hd as [(r & Hr & Hp) Hcl].
    destruct (skipn_cons_firstn _ _ Hr) as (F1 & F2 & F3).
    constructor; unfold remaining; simpl;
      rewrite ?length_app; simpl;
      replace (length (recC_sent s) + 1)%nat
        with (S (length (recC_sent s))) by lia; auto.
    + rewrite F1, map_app. simpl. rewrite <- Hs, Hp. reflexivity.
    + exists (recC_sent s). split; auto.
  - (* RangeClosed *)
    destruct (consumer s) as [i|i wr|res|res] eqn:Hcon;
      try discriminate.
    destruct (recC_closed s) eqn:Hcl; try discriminate.
    inversion Hstep; subst s'; clear Hstep.
    constructor; unfold remaining; simpl; auto.
    split; [reflexivity|]. split; [exists i; assumption|].
    destruct (decoder s) as [rest|p rest|].
    + destruct Hd; congruence.
    + destruct Hd; congruence.
    + destruct Hd as [_ [Hd|Hd]]; [left; assumption|].
      right. destruct (ctxCause s) as [[|]|]; congruence.
  - (* PushBody *)
    destruct (consumer s) as [i|i wr|res|res] eqn:Hcon;
      try discriminate.
    destruct (iteration_effects derived i wr (W s))
      as (cl & _ & Hidx & _).
    destruct (iteration derived i wr (W s))
      as [[i' o] w'] eqn:Hit.
    simpl in Hidx. subst i'.
    inversion Hstep; subst s'; clear Hstep.
    destruct Hc as (h & Hh & Hrun).
    constructor; unfold remaining; simpl; auto.
    + destruct o as [e|]; simpl.
      * exists h, wr, i, (W s). auto.
      * rewrite Hh.
        erewrite rangeLoop_snoc by exact Hrun. exact Hit.
    + destruct o; simpl; assumption.
  - (* ConsumeReturn *)
    destruct (consumer s) as [i|i wr|res|res] eqn:Hcon;
      try discriminate.
    inversion Hstep; subst s'; clear Hstep.
    constructor; unfold remaining; simpl; auto.
    + destruct (decoder s); auto.
      destruct Hd as [Hd1 [Hd2|Hd2]]; split; auto.
      right. destruct (ctxCause s); simpl; discriminate.
    + destruct res as [e|]; auto.
      destruct Hc as (H1 & H2 & H3). split; [assumption|].
      split; [assumption|].
      destruct H3 as [H3|H3]; [left; assumption|].
      right. rewrite H3. reflexivity.
    + destruct (ctxCause s); simpl; discriminate.
  - (* ParentCancel *)
    destruct (ctxCause s) as [cc|] eqn:Hcc; try discriminate.
    inversion Hstep; subst s'; clear Hstep.
    constructor; unfold remaining; simpl; auto.
    + destruct (decoder s); auto.
      destruct Hd as [Hd1 _]. split; [assumption|].
      right. discriminate.
    + destruct (consumer s) as [i|i wr|[e|]|[e|]]; auto.
      * destruct Hc as (H1 & H2 & _). auto.
      * destruct Hc as (H1 & H2 & _). auto.
    + destruct (consumer s); discriminate.
Qed.

Lemma run_app (cs1 cs2 : list choice) :
  forall s, run (cs1 ++ cs2) s =
            match run cs1 s with
            | Some s1 => run cs2 s1
            | None => None
            end.
Proof.
  induction cs1 as [|c cs1 IH]; intros s; simpl; [reflexivity|].
  destruct (step c s); [apply IH | reflexivity].
Qed.

Lemma Inv_run_from (cs : list choice) :
  forall s s', Inv s -> run cs s = Some s' -> Inv s'.
Proof.
  induction cs as [|c cs IH]; intros s s' HI H; simpl in H.
  - inversion H; subst; assumption.
  - destruct (step c s) as [s1|] eqn:Hst; [|discriminate].
    eapply IH; [|eassumption]. eapply Inv_step; eassumption.
Qed.

Lemma Inv_run (cs : list choice) (s : state) :
  run cs (consume records w0) = Some s -> Inv s.
Proof.
  apply Inv_run_from. apply Inv_consume.
Qed.

(** *** Every run is finite, and every run can be finished *)

Lemma step_weight (c : choice) (s s' : state) :
  step c s = Some s' -> (weight s' < weight s)%nat.
Proof.
  unfold weight. intros H.
  destruct c; simpl in H.
  - destruct (decoder s) as [[|r rest]| |]; try discriminate.
    inversion H; subst; simpl. lia.
  - destruct (decoder s) as [[|r rest]| |]; try discriminate.
    inversion H; subst; simpl. lia.
  - destruct (decoder s) as [rest|p rest|]; try discriminate.
    destruct (ctxCause s); try discriminate.
    inversion H; subst; simpl. lia.
  - destruct (decoder s) as [rest|p rest|]; try discriminate.
    destruct (consumer s); try discriminate.
    inversion H; subst; simpl. lia.
  - destruct (consumer s); try discriminate.
    destruct (recC_closed s); try discriminate.
    inversion H; subst; simpl. lia.
  - destruct (consumer s) as [i|i wr|res|res]; try discriminate.
    destruct (iteration derived i wr (W s)) as [[i' o] w'].
    inversion H; subst; simpl. destruct o; lia.
  - destruct (consumer s); try discriminate.
    inversion H; subst; simpl.
    destruct (ctxCause s); simpl; lia.
  - destruct (ctxCause s) eqn:Hc; try discriminate.
    inversion H; subst; simpl. lia.
Qed.

Lemma run_weight (cs : list choice) :
  forall s s', run cs s = Some s' ->
               (length cs + weight s' <= weight s)%nat.
Proof.
  induction cs as [|c cs IH]; intros s s' H; simpl in H.
  - inversion H; subst. simpl. lia.
  - destruct (step c s) as [s1|] eqn:Hst; [|discriminate].
    apply step_weight in Hst. apply IH in H. simpl. lia.
Qed.

Lemma next_enabled (s : state) (c : choice) :
  Inv s -> next s = Some c ->
  c <> ParentCancel /\ exists s', step c s = Some s'.
Proof.
  intros [Hs Hd Hc Hk] Hn. unfold next in Hn.
  destruct (consumer s) as [i|i wr|res|res] eqn:Hcon.
  - destruct (decoder s) as [[|r rest]|p rest|] eqn:Hdec;
      inversion Hn; subst c; (split; [discriminate|]);
      simpl; rewrite ?Hdec, ?Hcon; eauto.
    destruct Hd as [-> _]. eauto.
  - inversion Hn; subst c. split; [discriminate|].
    simpl. rewrite Hcon.
    destruct (iteration derived i wr (W s)). eauto.
  - inversion Hn; subst c. split; [discriminate|].
    simpl. rewrite Hcon. eauto.
  - destruct (decoder s) as [[|r rest]|p rest|] eqn:Hdec;
      inversion Hn; subst c; (split; [discriminate|]);
      simpl; rewrite ?Hdec, ?Hcon; eauto.
    destruct (ctxCause s); [eauto | congruence].
Qed.

Lemma next_finished (s : state) :
  next s = None -> finished s = true.
Proof.
  unfold next, finished.
  destruct (consumer s); destruct (decoder s) as [[|? ?]| |];
    intros H; try discriminate; reflexivity.
Qed.

Lemma finish_run (fuel : nat) :
  forall s, Inv s -> (weight s <= fuel)%nat ->
    ~ In ParentCancel (finish fuel s) /\
    exists s', run (finish fuel s) s = Some s' /\
               finished s' = true.
Proof.
  induction fuel as [|fuel IH]; intros s HI Hw.
  - simpl. split; [tauto|]. exists s. split; [reflexivity|].
    apply next_finished.
    destruct (next s) as [c|] eqn:Hn; [|reflexivity].
    destruct (next_enabled HI Hn) as (_ & s' & Hst).
    apply step_weight in Hst. lia.
  - simpl. destruct (next s) as [c|] eqn:Hn.
    + destruct (next_enabled HI Hn) as (Hc & s' & Hst).
      rewrite Hst.
      assert (HI' : Inv s') by (eapply Inv_step; eassumption).
      pose proof (step_weight _ _ Hst) as Hlt.
      destruct (IH s' HI') as (Hnc & s2 & Hrun & Hfin); [lia|].
      split.
      * simpl. intros [Heq|Hin]; [congruence | tauto].
      * exists s2. simpl. rewrite Hst. auto.
    + split; [simpl; tauto|]. exists s. split; [reflexivity|].
      apply next_finished; assumption.
Qed.

(** Total correctness, first half: no run is longer than [3 N + 5]
    steps. *)
Lemma run_bounded (cs : list choice) (s : state) :
  run cs (consume records w0) = Some s ->
  (length cs <= 3 * length records + 5)%nat.
Proof.
  intros H. apply run_weight in H. unfold weight in H at 2.
  simpl in H. lia.
Qed.

(** Second half: whatever has happened so far, both goroutines can run
    to their end with no help from the environment; no run deadlocks. *)
Lemma run_can_finish (cs : list choice) (s : state) :
  run cs (consume records w0) = Some s ->
  exists cs' s',
    ~ In ParentCancel cs' /\
    run (cs ++ cs') (consume records w0) = Some s' /\
    finished s' = true.
Proof.
  intros H.
  destruct (@finish_run (weight s) s) as (Hnc & s' & Hrun & Hfin);
    [eapply Inv_run; eassumption | lia |].
  exists (finish (weight s) s), s'.
  split; [assumption|]. split; [|assumption].
  rewrite run_app, H. assumption.
Qed.

Lemma finished_returned (s : state) :
  finished s = true -> exists res, returned s = Some res.
Proof.
  unfold finished, returned.
  destruct (decoder s); try discriminate.
  destruct (consumer s); try discriminate. eauto.
Qed.

(** *** The decoder does not disturb a push *)

(** A step of the decoder alone taken just before the body of the pusher's
    loop can as well be taken just after it: the two meet in the same
    state.  So the decoder may run while a push is under way, and the push
    is none the wiser. *)
Lemma push_commutes_with_decoder (c : choice) (s s1 s2 : state) :
  c = DecUnmarshal \/ c = DecExhausted \/ c = DecDone ->
  step c s = Some s1 ->
  step PushBody s1 = Some s2 ->
  exists s1', step PushBody s = Some s1' /\ step c s1' = Some s2.
Proof.
  intros Hc H1 H2.
  destruct Hc as [ -> | [ -> | -> ] ]; simpl in *.
  - destruct (decoder s) as [[|r rest]| |] eqn:Hdec; try discriminate.
    inversion H1; subst s1; clear H1. simpl in H2.
    destruct (consumer s) as [i|i wr|res|res]; try discriminate.
    destruct (iteration derived i wr (W s)) as [[i' o] w'].
    inversion H2; subst s2; clear H2.
    eexists. split; [reflexivity|]. simpl. rewrite ?Hdec. reflexivity.
  - destruct (decoder s) as [[|r rest]| |] eqn:Hdec; try discriminate.
    inversion H1; subst s1; clear H1. simpl in H2.
    destruct (consumer s) as [i|i wr|res|res]; try discriminate.
    destruct (iteration derived i wr (W s)) as [[i' o] w'].
    inversion H2; subst s2; clear H2.
    eexists. split; [reflexivity|]. simpl. rewrite ?Hdec. reflexivity.
  - destruct (decoder s) as [rest|p rest|] eqn:Hdec; try discriminate.
    destruct (ctxCause s) as [cc|] eqn:Hcc; try discriminate.
    inversion H1; subst s1; clear H1. simpl in H2.
    destruct (consumer s) as [i|i wr|res|res]; try discriminate.
    destruct (iteration derived i wr (W s)) as [[i' o] w'].
    inversion H2; subst s2; clear H2.
    eexists. split; [reflexivity|]. simpl. rewrite ?Hdec, ?Hcc. reflexivity.
Qed.

(** *** The caller's context and the schedule *)

Lemma step_cause (c : choice) (s s' : state) :
  step c s = Some s' ->
  ctxCause s' = Some ParentCanceled ->
  ctxCause s = Some ParentCanceled \/ c = ParentCancel.
Proof.
  intros H Hc.
  destruct c; simpl in H; auto.
  - destruct (decoder s) as [[|r rest]| |]; try discriminate.
    inversion H; subst; auto.
  - destruct (decoder s) as [[|r rest]| |]; try discriminate.
    inversion H; subst; auto.
  - destruct (decoder s) as [rest|p rest|]; try discriminate.
    destruct (ctxCause s) eqn:Hcc; try discriminate.
    inversion H; subst; simpl in *. left. congruence.
  - destruct (decoder s) as [rest|p rest|]; try discriminate.
    destruct (consumer s); try discriminate.
    inversion H; subst; auto.
  - destruct (consumer s); try discriminate.
    destruct (recC_closed s); try discriminate.
    inversion H; subst; auto.
  - destruct (consumer s) as [i|i wr|res|res]; try discriminate.
    destruct (iteration derived i wr (W s)) as [[i' o] w'].
    inversion H; subst; auto.
  - destruct (consumer s); try discriminate.
    inversion H; subst; simpl in *.
    destruct (ctxCause s) as [[|]|]; simpl in *;
      try discriminate; auto.
Qed.

Lemma run_cause (cs : list choice) :
  forall s s',
    run cs s = Some s' ->
    ctxCause s' = Some ParentCanceled ->
    ctxCause s = Some ParentCanceled \/ In ParentCancel cs.
Proof.
  induction cs as [|c cs IH]; intros s s' H Hc; simpl in H.
  - inversion H; subst; auto.
  - destruct (step c s) as [s1|] eqn:Hst; [|discriminate].
    destruct (IH _ _ H Hc) as [H1|H1]; [|right; right; assumption].
    destruct (step_cause _ _ Hst H1) as [H2|H2]; [auto|].
    right. left. auto.
Qed.

Lemma uncancelled_cause (cs : list choice) (s : state) :
  run cs (consume records w0) = Some s ->
  uncancelled cs -> ctxCause s <> Some ParentCanceled.
Proof.
  intros H Hu Hc.
  destruct (run_cause _ _ H Hc) as [H1|H1]; [discriminate | auto].
Qed.

(** *** What a schedule tells about the state it leads to *)

(** Induction over a run, one step at a time. *)
Lemma run_snoc_ind (P : list choice -> state -> Prop) (s0 : state) :
  P [] s0 ->
  (forall cs s c s',
      run cs s0 = Some s -> P cs s -> step c s = Some s' ->
      P (cs ++ [c]) s') ->
  forall cs s, run cs s0 = Some s -> P cs s.
Proof.
  intros H0 Hstep cs.
  induction cs as [|c cs IH] using rev_ind; intros s H.
  - simpl in H. inversion H; subst. exact H0.
  - rewrite run_app in H.
    destruct (run cs s0) as [s1|] eqn:Hr; [|discriminate].
    simpl in H.
    destruct (step c s1) as [s2|] eqn:Hst; [|discriminate].
    inversion H; subst. eapply Hstep; eauto.
Qed.



(** *** The effects of a run, in terms of the batch *)

Lemma returned_outcome (s : state) (res : option (error E)) :
  returned s = Some res -> outcome s = Some res.
Proof.
  unfold returned, outcome. destruct (consumer s); congruence.
Qed.

Lemma tenantID_parseRecord (r : record.t) :
  tenantID (parseRecord r) = record.tenantID r.
Proof.
  unfold parseRecord. destruct (Unmarshal (record.content r)). reflexivity.
Qed.

Lemma payload_parseRecord (r : record.t) :
  payload (parseRecord r) = fst (Unmarshal (record.content r)).
Proof.
  unfold parseRecord. destruct (Unmarshal (record.content r)). reflexivity.
Qed.

Lemma unitArgs_parseRecord (r : record.t) :
  unitArgs derived (parseRecord r) = pushArgs r.
Proof.
  unfold unitArgs, pushArgs, derived.
  rewrite tenantID_parseRecord, payload_parseRecord. reflexivity.
Qed.

Lemma args_of_records (rs : list record.t) :
  map (unitArgs derived) (filter decoded (map parseRecord rs))
  = map pushArgs (filter decodes rs).
Proof.
  induction rs as [|r rs IH]; simpl; [reflexivity|].
  unfold decodes at 1. destruct (decoded (parseRecord r)); simpl.
  - rewrite unitArgs_parseRecord, IH. reflexivity.
  - exact IH.
Qed.

Lemma firstn_S_nth_error {A} (xs : list A) :
  forall (k : nat) (x : A),
    nth_error xs k = Some x -> firstn (S k) xs = firstn k xs ++ [x].
Proof.
  induction xs as [|y xs IH]; intros k x H.
  - destruct k; discriminate.
  - destruct k as [|k]; simpl in *.
    + inversion H; reflexivity.
    + rewrite (IH _ _ H). reflexivity.
Qed.

(** The last unit handed over is the unit of the record at that position
    of the batch. *)
Lemma sent_snoc (s : state) (h : list parsedRecord) (u : parsedRecord) :
  Inv s -> recC_sent s = h ++ [u] ->
  exists r,
    nth_error records (length h) = Some r /\
    u = parseRecord r /\
    received s = firstn (length h) records ++ [r] /\
    h = map parseRecord (firstn (length h) records).
Proof.
  intros [Hs _ _ _] Hh. unfold received.
  assert (Hlen : length (recC_sent s) = S (length h))
    by (rewrite Hh, length_app; simpl; lia).
  assert (Hn : (length (recC_sent s) <= length records)%nat).
  { rewrite Hs at 1. rewrite length_map, length_firstn. lia. }
  rewrite Hlen in *.
  destruct (nth_error records (length h)) as [r|] eqn:Hr.
  - exists r. rewrite (firstn_S_nth_error _ _ Hr) in *.
    rewrite Hh, map_app in Hs. simpl in Hs.
    apply app_inj_tail in Hs. destruct Hs as [H1 H2].
    repeat split; auto.
  - apply nth_error_None in Hr. lia.
Qed.

Lemma pushed_calls (s : state) (cl : list pushCall) :
  pushed (W s) = pushed w0 ++ cl -> calls s = cl.
Proof.
  intros H. unfold calls. rewrite H.
  rewrite skipn_app, skipn_all, Nat.sub_diag. reflexivity.
Qed.

(** The effects of a run up to any state it reaches. *)
Lemma reached_effects (s : state) :
  Inv s ->
  effects derived (processed s) w0 (W s) (calls s) /\
  match consumer s with
  | PRange i =>
      i = (Z.of_nat (length (recC_sent s)) - 1)%Z /\
      Forall (fun c => serverCall c = false) (calls s)
  | PBody i _ =>
      i = (Z.of_nat (length (recC_sent s)) - 2)%Z /\
      Forall (fun c => serverCall c = false) (calls s)
  | PReturned None | CReturned None =>
      Forall (fun c => serverCall c = false) (calls s)
  | PReturned (Some e) | CReturned (Some e) =>
      exists h u cs0 c e0,
        recC_sent s = h ++ [u] /\
        calls s = cs0 ++ [c] /\
        Forall (fun c => serverCall c = false) cs0 /\
        err u = None /\
        callArgs c = unitArgs derived u /\
        callErr c = Some e0 /\
        IsClientError e0 = false /\
        e = ErrorfConsuming (Z.of_nat (length h)) (tenantID u) e0
  end.
Proof.
  intros HI. pose proof HI as [Hs Hd Hc Hk]. unfold processed.
  assert (Hfail : forall e h wr i w1,
    recC_sent s = h ++ [wr] ->
    rangeLoop derived (-1)%Z h w0 = ((i, None), w1) ->
    iteration derived i wr w1 = (((i + 1)%Z, Some e), W s) ->
    effects derived (recC_sent s) w0 (W s) (calls s) /\
    exists h u cs0 c e0,
      recC_sent s = h ++ [u] /\
      calls s = cs0 ++ [c] /\
      Forall (fun c => serverCall c = false) cs0 /\
      err u = None /\
      callArgs c = unitArgs derived u /\
      callErr c = Some e0 /\
      IsClientError e0 = false /\
      e = ErrorfConsuming (Z.of_nat (length h)) (tenantID u) e0).
  { intros e h wr i w1 Hh Hrun Hit.
    destruct (rangeLoop_effects _ _ _ _ Hrun) as (Hi & c1 & He1 & Hns).
    destruct (iteration_effects derived i wr w1)
      as (c2 & He2 & _ & Hres).
    rewrite Hit in He2, Hres. simpl in He2, Hres.
    pose proof (effects_app He1 He2) as He.
    rewrite <- Hh in He.
    pose proof (pushed_calls s _ (eff_pushed He)) as Hcalls.
    rewrite Hcalls. split; [exact He|].
    destruct (err wr) as [e'|] eqn:Hwr.
    - destruct Hres as [_ Hres]. discriminate.
    - destruct Hres as (c & -> & Hres).
      pose proof (eff_args He2) as Hargs.
      unfold decoded in Hargs. simpl in Hargs. rewrite Hwr in Hargs.
      simpl in Hargs. injection Hargs as Hargs.
      destruct (callErr c) as [e0|] eqn:Hce; [|discriminate].
      destruct (IsClientError e0) eqn:Hcl; [discriminate|].
      inversion Hres; subst e.
      exists h, wr, c1, c, e0.
      repeat split; auto.
      + unfold callArgs, unitArgs. congruence.
      + f_equal. lia. }
  destruct (consumer s) as [i|i wr|[e|]|[e|]] eqn:Hcon.
  - destruct (rangeLoop_effects _ _ _ _ Hc) as (Hi & cl & He & Hns).
    rewrite (pushed_calls s _ (eff_pushed He)).
    split; [exact He|]. split; [lia | exact Hns].
  - destruct Hc as (h & Hh & Hrun).
    destruct (rangeLoop_effects _ _ _ _ Hrun) as (Hi & cl & He & Hns).
    rewrite (pushed_calls s _ (eff_pushed He)).
    rewrite Hh, removelast_last, length_app. simpl.
    split; [exact He|]. split; [lia | exact Hns].
  - destruct Hc as (h & wr & i & w1 & Hh & Hrun & Hit).
    eapply Hfail; eassumption.
  - destruct Hc as (_ & (i & Hrun) & _).
    destruct (rangeLoop_effects _ _ _ _ Hrun) as (Hi & cl & He & Hns).
    rewrite (pushed_calls s _ (eff_pushed He)).
    split; [exact He | exact Hns].
  - destruct Hc as (h & wr & i & w1 & Hh & Hrun & Hit).
    eapply Hfail; eassumption.
  - destruct Hc as (_ & (i & Hrun) & _).
    destruct (rangeLoop_effects _ _ _ _ Hrun) as (Hi & cl & He & Hns).
    rewrite (pushed_calls s _ (eff_pushed He)).
    split; [exact He | exact Hns].
Qed.

(** The value [pushRequests] returns in a run is the value of the loop over
    what was sent on [recC], and the world is the one that loop leaves. *)
Lemma outcome_pushRequests (s : state) (res : option (error E)) :
  Inv s -> outcome s = Some res ->
  pushRequests derived (recC_sent s) w0 = (res, W s).
Proof.
  intros [Hs Hd Hc Hk] Ho. unfold outcome in Ho.
  unfold pushRequests, bind, ret.
  destruct (consumer s) as [i|i wr|[e|]|[e|]]; try discriminate;
    inversion Ho; subst res; clear Ho.
  - destruct Hc as (h & wr & i & w1 & Hh & Hrun & Hit).
    rewrite Hh. erewrite rangeLoop_snoc by exact Hrun.
    rewrite Hit. reflexivity.
  - destruct Hc as (_ & (i & Hrun) & _). rewrite Hrun. reflexivity.
  - destruct Hc as (h & wr & i & w1 & Hh & Hrun & Hit).
    rewrite Hh. erewrite rangeLoop_snoc by exact Hrun.
    rewrite Hit. reflexivity.
  - destruct Hc as (_ & (i & Hrun) & _). rewrite Hrun. reflexivity.
Qed.

Lemma processed_outcome (s : state) (res : option (error E)) :
  outcome s = Some res -> processed s = recC_sent s.
Proof.
  unfold outcome, processed. destruct (consumer s); congruence.
Qed.

Lemma sent_received (s : state) :
  Inv s -> recC_sent s = map parseRecord (received s).
Proof.
  intros [Hs _ _ _]. exact Hs.
Qed.

Lemma received_length (s : state) :
  Inv s -> length (received s) = length (recC_sent s).
Proof.
  intros HI. pose proof (sent_received HI) as H.
  apply (f_equal (@length _)) in H. rewrite length_map in H.
  symmetry. exact H.
Qed.

Lemma received_remaining (s : state) :
  received s ++ remaining s = records.
Proof.
  apply firstn_skipn.
Qed.

(** What a run that has left [pushRequests] did, in terms of the batch. *)
Lemma consume_result (cs : list choice) (s : state)
      (res : option (error E)) :
  run cs (consume records w0) = Some s ->
  outcome s = Some res ->
  effects derived (map parseRecord (received s)) w0 (W s) (calls s) /\
  map callArgs (calls s) = map pushArgs (filter decodes (received s)) /\
  match res with
  | None =>
      Forall (fun c => serverCall c = false) (calls s) /\
      (received s = records \/ In ParentCancel cs)
  | Some e =>
      exists k r c0 c e0,
        nth_error records k = Some r /\
        received s = firstn (S k) records /\
        decodes r = true /\
        calls s = c0 ++ [c] /\
        Forall (fun c => serverCall c = false) c0 /\
        callArgs c = pushArgs r /\
        callErr c = Some e0 /\
        IsClientError e0 = false /\
        e = ErrorfConsuming (Z.of_nat k) (record.tenantID r) e0
  end.
Proof.
  intros Hrun Ho.
  pose proof (Inv_run _ Hrun) as HI.
  destruct (reached_effects HI) as [He Hm].
  rewrite (processed_outcome _ Ho), (sent_received HI) in He.
  split; [exact He|].
  split; [rewrite (eff_args He); apply args_of_records|].
  pose proof HI as [Hs Hd Hc Hk].
  unfold outcome in Ho.
  destruct (consumer s) as [i|i wr|[e|]|[e|]] eqn:Hcon; try discriminate;
    inversion Ho; subst res; clear Ho.
  - destruct Hm as (h & u & c0 & c & e0 & Hh & Hcl & Hns & Hu & Ha & Hce
                    & Hic & He0).
    destruct (@sent_snoc s h u HI Hh) as (r & Hr & Hur & Hrec & _).
    exists (length h), r, c0, c, e0. subst u.
    rewrite tenantID_parseRecord in He0.
    rewrite unitArgs_parseRecord in Ha.
    repeat split; auto.
    + rewrite Hrec. symmetry. apply firstn_S_nth_error. exact Hr.
    + unfold decodes, decoded. rewrite Hu. reflexivity.
  - split; [exact Hm|].
    destruct Hc as (_ & _ & [Hr|Hr]).
    + left. unfold received. apply skipn_nil_firstn. exact Hr.
    + right. destruct (run_cause _ _ Hrun Hr) as [H|H];
        [discriminate | exact H].
  - destruct Hm as (h & u & c0 & c & e0 & Hh & Hcl & Hns & Hu & Ha & Hce
                    & Hic & He0).
    destruct (@sent_snoc s h u HI Hh) as (r & Hr & Hur & Hrec & _).
    exists (length h), r, c0, c, e0. subst u.
    rewrite tenantID_parseRecord in He0.
    rewrite unitArgs_parseRecord in Ha.
    repeat split; auto.
    + rewrite Hrec. symmetry. apply firstn_S_nth_error. exact Hr.
    + unfold decodes, decoded. rewrite Hu. reflexivity.
  - split; [exact Hm|].
    destruct Hc as (_ & _ & [Hr|Hr]).
    + left. unfold received. apply skipn_nil_firstn. exact Hr.
    + right. destruct (run_cause _ _ Hrun Hr) as [H|H];
        [discriminate | exact H].
Qed.

(** Once the decoder has returned it takes no step and sends nothing. *)
Lemma decoder_returned_stays (cs : list choice) :
  forall s s',
    run cs s = Some s' -> decoder s = DReturned ->
    decoder s' = DReturned /\ recC_sent s' = recC_sent s.
Proof.
  induction cs as [|c cs IH]; intros s s' H Hd; simpl in H.
  - inversion H; subst; auto.
  - destruct (step c s) as [s1|] eqn:Hst; [|discriminate].
    assert (decoder s1 = DReturned /\ recC_sent s1 = recC_sent s)
      as [H1 H2].
    { destruct c; simpl in Hst; rewrite ?Hd in Hst; try discriminate.
      - destruct (consumer s); try discriminate.
        destruct (recC_closed s); try discriminate.
        inversion Hst; subst; simpl; auto.
      - destruct (consumer s) as [i|i wr|res|res]; try discriminate.
        destruct (iteration derived i wr (W s)) as [[i' o] w'].
        inversion Hst; subst; simpl; auto.
      - destruct (consumer s); try discriminate.
        inversion Hst; subst; simpl; auto.
      - destruct (ctxCause s); try discriminate.
        inversion Hst; subst; simpl; auto. }
    destruct (IH _ _ H H1) as [H3 H4]. split; congruence.
Qed.

Lemma filter_all {A} (f : A -> bool) (xs : list A) :
  (forall x, In x xs -> f x = true) -> filter f xs = xs.
Proof.
  induction xs as [|x xs IH]; intros H; simpl; [reflexivity|].
  rewrite (H x (or_introl eq_refl)). f_equal.
  apply IH. intros y Hy. apply H. right. exact Hy.
Qed.

Lemma filter_none {A} (f : A -> bool) (xs : list A) :
  Forall (fun x => f x = false) xs -> filter f xs = [].
Proof.
  induction 1 as [|x xs Hx _ IH]; simpl; [reflexivity|].
  rewrite Hx. exact IH.
Qed.

(** With one record that does not decode, the records that do are all the
    others. *)
Lemma filter_all_but (xs : list record.t) :
  forall (k : nat) (x : record.t),
    nth_error xs k = Some x ->
    decodes x = false ->
    (forall j r, nth_error xs j = Some r -> j <> k -> decodes r = true) ->
    filter decodes xs = firstn k xs ++ skipn (S k) xs.
Proof.
  induction xs as [|y xs IH]; intros k x Hk Hx Hall.
  - destruct k; discriminate.
  - destruct k as [|k]; simpl in Hk.
    + inversion Hk; subst y. simpl. rewrite Hx.
      apply filter_all. intros r Hr.
      destruct (In_nth_error _ _ Hr) as [j Hj].
      apply (Hall (S j) r); [exact Hj | discriminate].
    + simpl. rewrite (Hall 0%nat y eq_refl) by discriminate.
      f_equal. apply (IH k x Hk Hx).
      intros j r Hj Hne. apply (Hall (S j) r); [exact Hj | lia].
Qed.

(** ** The properties of the batch consumer *)

(** The sink's answer to a push the consumer made. *)
Lemma calls_from_sink (s : state) (c : pushCall) :
  Inv s -> In c (calls s) ->
  exists e : Env, callErr c = fst (PushToStorage (callCtx c) (callReq c) e).
Proof.
  intros HI Hin. destruct (reached_effects HI) as [He _].
  pose proof (eff_sink He) as Hs. rewrite Forall_forall in Hs.
  apply Hs. exact Hin.
Qed.

(** C1, for a caller's context that is not cancelled while [consume] runs.
    When every record of the batch decodes and the sink's [PushToStorage]
    always returns nil, no run is longer than [3 N + 5] steps and every run
    can be brought to the return of [consume]; at the return [consume]
    returns nil and the sink has been pushed to
    exactly once per record, in batch order: the i-th push carries the
    request unmarshalled from the i-th record and the derived context with
    that record's tenant injected for this call. *)
Theorem C1_every_record_pushed (cs : list choice) (s : state) :
  (forall r, In r records -> decodes r = true) ->
  (forall c wr e, fst (PushToStorage c wr e) = None) ->
  uncancelled cs ->
  run cs (consume records w0) = Some s ->
  (length cs <= 3 * length records + 5)%nat /\
  (exists cs' s',
      uncancelled (cs ++ cs') /\
      run (cs ++ cs') (consume records w0) = Some s' /\
      returned s' = Some None) /\
  (forall res,
      returned s = Some res ->
      res = None /\
      pushed (W s) = pushed w0 ++ calls s /\
      length (calls s) = length records /\
      map callArgs (calls s) = map pushArgs records /\
      map (fun c => ExtractOrgID (callCtx c)) (calls s)
      = map (fun r => Some (record.tenantID r)) records /\
      Forall (fun c => callErr c = None) (calls s)).
Proof.
  intros Hdec Hsink.
  assert (Hmain : forall cs s res,
    uncancelled cs ->
    run cs (consume records w0) = Some s ->
    returned s = Some res ->
    res = None /\
    pushed (W s) = pushed w0 ++ calls s /\
    length (calls s) = length records /\
    map callArgs (calls s) = map pushArgs records /\
    map (fun c => ExtractOrgID (callCtx c)) (calls s)
    = map (fun r => Some (record.tenantID r)) records /\
    Forall (fun c => callErr c = None) (calls s)).
  { clear cs s. intros cs s res Hu Hrun Hret.
    pose proof (Inv_run _ Hrun) as HI.
    assert (Hnil : Forall (fun c => callErr c = None) (calls s)).
    { apply Forall_forall. intros c Hc.
      destruct (calls_from_sink _ HI Hc) as [e He].
      rewrite He. apply Hsink. }
    destruct (consume_result _ Hrun (returned_outcome _ Hret))
      as (He & Hargs & Hres).
    destruct res as [e|].
    - destruct Hres as (k & r & c0 & c & e0 & _ & _ & _ & Hcl & _ & _
                        & Hce & _).
      rewrite Forall_forall in Hnil.
      rewrite (Hnil c) in Hce; [discriminate|].
      rewrite Hcl. apply in_or_app. right. left. reflexivity.
    - destruct Hres as [_ [Hrec|Hc]]; [|contradiction].
      rewrite Hrec, (filter_all _ _ Hdec) in Hargs.
      split; [reflexivity|].
      split; [exact (eff_pushed He)|].
      split.
      { apply (f_equal (@length _)) in Hargs.
        rewrite !length_map in Hargs. exact Hargs. }
      split; [exact Hargs|].
      split; [|exact Hnil].
      apply (f_equal (map (fun a => ExtractOrgID (fst a)))) in Hargs.
      rewrite !map_map in Hargs. exact Hargs. }
  intros Hu Hrun. split; [eapply run_bounded; exact Hrun|]. split.
  - destruct (run_can_finish _ Hrun) as (cs' & s' & Hnc & Hrun' & Hfin).
    destruct (finished_returned _ Hfin) as [res Hret].
    assert (Hu' : uncancelled (cs ++ cs')).
    { unfold uncancelled in *. rewrite in_app_iff. tauto. }
    exists cs', s'. split; [exact Hu'|]. split; [exact Hrun'|].
    destruct (Hmain _ _ _ Hu' Hrun' Hret) as [-> _]. exact Hret.
  - intros res Hret. eapply Hmain; eassumption.
Qed.


(** C10.  While [pushRequests] waits for the next unit its index is the
    number of units it has received, less one, whether they were pushed or
    skipped; and the index wrapped into the error [consume] returns is the
    position in the batch of the record whose push failed, however many
    records before it failed to decode and were not pushed. *)
Theorem C10_index_is_batch_position (cs : list choice) (s : state) :
  run cs (consume records w0) = Some s ->
  (forall i,
      consumer s = PRange i ->
      i = (Z.of_nat (length (recC_sent s)) - 1)%Z) /\
  (forall e,
      returned s = Some (Some e) ->
      exists k r e0 c0 c,
        nth_error records k = Some r /\
        decodes r = true /\
        e = ErrorfConsuming (Z.of_nat k) (record.tenantID r) e0 /\
        IsClientError e0 = false /\
        calls s = c0 ++ [c] /\
        callArgs c = pushArgs r /\
        callErr c = Some e0 /\
        length (recC_sent s) = S k /\
        length (calls s) = length (filter decodes (firstn (S k) records))).
Proof.
  intros Hrun. pose proof (Inv_run _ Hrun) as HI. split.
  - intros i Hi. destruct (reached_effects HI) as [_ Hm].
    rewrite Hi in Hm. apply Hm.
  - intros e Hret.
    destruct (consume_result _ Hrun (returned_outcome _ Hret))
      as (He & Hargs & k & r & c0 & c & e0 & Hr & Hrec & Hd & Hcl & Hns
          & Ha & Hce & Hic & Hee).
    exists k, r, e0, c0, c. repeat split; auto.
    + rewrite <- (received_length HI), Hrec.
      rewrite length_firstn.
      assert (k < length records)%nat
        by (apply nth_error_Some; congruence).
      lia.
    + rewrite <- Hrec. apply (f_equal (@length _)) in Hargs.
      rewrite !length_map in Hargs. exact Hargs.
Qed.

(** The loop over two sequences of units in a row: it stops in the first
    when an iteration there returns, and else goes on into the second with
    the index and the world the first leaves. *)
Lemma rangeLoop_app (cx : context Ctx) (a b : list parsedRecord) :
  forall (i : Z) (w : world),
    rangeLoop cx i (a ++ b) w
    = match snd (fst (rangeLoop cx i a w)) with
      | Some _ => rangeLoop cx i a w
      | None =>
          rangeLoop cx (fst (fst (rangeLoop cx i a w))) b
                    (snd (rangeLoop cx i a w))
      end.
Proof.
  induction a as [|u a IH]; intros i w; simpl; [reflexivity|].
  unfold bind.
  destruct (iteration cx i u w) as [[i' [e|]] w1]; simpl.
  - reflexivity.
  - apply IH.
Qed.

(** The units of the whole batch are those sent and those of the records
    left. *)
Lemma unmarshalRequests_split (s : state) :
  Inv s ->
  unmarshalRequests records = recC_sent s ++ map parseRecord (remaining s).
Proof.
  intros HI. unfold unmarshalRequests.
  rewrite <- (received_remaining s) at 1.
  rewrite map_app, <- (sent_received HI). reflexivity.
Qed.

(** The machine and the loop agree: when [consume] has returned an error,
    or nil with the caller's context never cancelled, its result and its
    world are those of [pushRequests] over the units of the whole batch. *)
Lemma returned_is_sequential (cs : list choice) (s : state)
      (res : option (error E)) :
  run cs (consume records w0) = Some s ->
  returned s = Some res ->
  uncancelled cs \/ (exists e, res = Some e) ->
  pushRequests derived (unmarshalRequests records) w0 = (res, W s).
Proof.
  intros Hrun Hret Hor.
  pose proof (Inv_run _ Hrun) as HI.
  pose proof (outcome_pushRequests HI (returned_outcome _ Hret)) as Hp.
  rewrite (unmarshalRequests_split HI).
  unfold pushRequests, bind, ret in *.
  rewrite rangeLoop_app.
  destruct (rangeLoop derived (-1)%Z (recC_sent s) w0) as [[j o] w'] eqn:Hr.
  simpl in *. inversion Hp; subst o w'; clear Hp.
  destruct res as [e|]; [reflexivity|].
  destruct Hor as [Hu|[e He]]; [|discriminate].
  destruct (consume_result _ Hrun (returned_outcome _ Hret))
    as (_ & _ & _ & [Hrec|Hc]); [|contradiction].
  assert (Hrem : remaining s = []).
  { pose proof (received_remaining s) as Hrr. rewrite Hrec in Hrr.
    apply (f_equal (@length _)) in Hrr. rewrite length_app in Hrr.
    destruct (remaining s); [reflexivity | simpl in Hrr; lia]. }
  rewrite Hrem. simpl. unfold ret. reflexivity.
Qed.

(** A call that the run has made and that is not classified as a server
    error has, when it failed, an error classified as a client error. *)
Lemma nonserver_client (cl : list pushCall) (c : pushCall) (e : error E) :
  Forall (fun c => serverCall c = false) cl ->
  In c cl -> callErr c = Some e -> IsClientError e = true.
Proof.
  intros HF Hin Hce. rewrite Forall_forall in HF.
  pose proof (HF c Hin) as H. unfold serverCall in H. rewrite Hce in H.
  apply negb_false_iff. exact H.
Qed.

(** When [consume] has returned, no push of the run was classified as a
    server error and the caller's context was not cancelled, [consume] has
    returned nil and the pusher has received the whole batch. *)
Lemma no_abort (cs : list choice) (s : state) (res : option (error E)) :
  uncancelled cs ->
  run cs (consume records w0) = Some s ->
  returned s = Some res ->
  Forall (fun c => serverCall c = false) (calls s) ->
  res = None /\ received s = records.
Proof.
  intros Hu Hrun Hret HF.
  destruct (consume_result _ Hrun (returned_outcome _ Hret))
    as (He & Hargs & Hres).
  destruct res as [e|].
  - exfalso.
    destruct Hres as (k & r & c0 & c & e0 & _ & _ & _ & Hcl & _ & _
                      & Hce & Hic & _).
    assert (Hin : In c (calls s))
      by (rewrite Hcl; apply in_or_app; right; left; reflexivity).
    rewrite (@nonserver_client _ _ _ HF Hin Hce) in Hic. discriminate.
  - destruct Hres as [_ [Hrec|Hc]]; [auto | contradiction].
Qed.

(** When the loop of [pushRequests] over the units of the batch returns
    nil, every run under a caller's context that is not cancelled can be
    brought to the return of [consume], and [consume] then returns nil. *)
Lemma can_return_nil (cs : list choice) (s : state) :
  fst (pushRequests derived (unmarshalRequests records) w0) = None ->
  uncancelled cs ->
  run cs (consume records w0) = Some s ->
  exists cs' s',
    uncancelled (cs ++ cs') /\
    run (cs ++ cs') (consume records w0) = Some s' /\
    returned s' = Some None.
Proof.
  intros Hnil Hu Hrun.
  destruct (run_can_finish _ Hrun) as (cs' & s' & Hnc & Hrun' & Hfin).
  destruct (finished_returned _ Hfin) as [res Hret].
  assert (Hu' : uncancelled (cs ++ cs')).
  { unfold uncancelled in *. rewrite in_app_iff. tauto. }
  exists cs', s'. split; [exact Hu'|]. split; [exact Hrun'|].
  pose proof (returned_is_sequential Hrun' Hret (or_introl Hu')) as Hseq.
  rewrite Hseq in Hnil. simpl in Hnil. subst res. exact Hret.
Qed.

(** The two ways of saying that no push fails for a reason of the server
    agree at the return of [consume], under a caller's context that is not
    cancelled: no push of the run was classified as a server error exactly
    when the loop of [pushRequests] over the units of the batch returns
    nil. *)
Lemma no_server_call_iff_nil (cs : list choice) (s : state)
      (res : option (error E)) :
  uncancelled cs ->
  run cs (consume records w0) = Some s ->
  returned s = Some res ->
  Forall (fun c => serverCall c = false) (calls s) <->
  fst (pushRequests derived (unmarshalRequests records) w0) = None.
Proof.
  intros Hu Hrun Hret.
  pose proof (returned_is_sequential Hrun Hret (or_introl Hu)) as Hseq.
  rewrite Hseq. simpl. split.
  - intros HF. destruct (no_abort Hu Hrun Hret HF) as [H _]. exact H.
  - intros ->.
    destruct (consume_result _ Hrun (returned_outcome _ Hret))
      as (_ & _ & HF & _).
    exact HF.
Qed.

Lemma decodes_false (r : record.t) :
  decodes r = false ->
  exists e,
    snd (Unmarshal (record.content r)) = Some e /\
    err (parseRecord r)
    = Some (Wrap e "parsing ingest consumer write request"%string).
Proof.
  unfold decodes, decoded, parseRecord.
  destruct (Unmarshal (record.content r)) as [wr [e|]]; simpl;
    [eauto | discriminate].
Qed.

Lemma decodeErrors_decoded (xs : list record.t) :
  (forall r, In r xs -> decodes r = true) ->
  decodeErrors (map parseRecord xs) = [].
Proof.
  induction xs as [|y xs IH]; intros H; simpl; [reflexivity|].
  pose proof (H y (or_introl eq_refl)) as Hy.
  unfold decodes, decoded in Hy.
  destruct (err (parseRecord y)); [discriminate|]. simpl.
  apply IH. intros r Hr. apply H. right. exact Hr.
Qed.

Lemma decodeErrors_all_but (xs : list record.t) :
  forall (k : nat) (x : record.t) (e : error E),
    nth_error xs k = Some x ->
    err (parseRecord x) = Some e ->
    (forall j r, nth_error xs j = Some r -> j <> k -> decodes r = true) ->
    decodeErrors (map parseRecord xs) = [e].
Proof.
  induction xs as [|y xs IH]; intros k x e Hk Hx Hall.
  - destruct k; discriminate.
  - destruct k as [|k]; simpl in Hk.
    + inversion Hk; subst y. simpl. rewrite Hx. simpl. f_equal.
      apply decodeErrors_decoded. intros r Hr.
      destruct (In_nth_error _ _ Hr) as [j Hj].
      apply (Hall (S j) r); [exact Hj | discriminate].
    + simpl.
      pose proof (Hall 0%nat y eq_refl) as Hy.
      unfold decodes, decoded in Hy.
      destruct (err (parseRecord y)); [discriminate Hy; discriminate|].
      simpl. apply (IH k x e Hk Hx).
      intros j r Hj Hne. apply (Hall (S j) r); [exact Hj | lia].
Qed.

(** C3, for runs in which no push is classified as a server error and the
    caller's context is not cancelled, and with the log line as the code
    writes it.  When the record at index [k] is the only one that does not
    decode: its unit costs one error-level log line carrying the wrapped
    decode error (and neither the index nor the tenant) and touches nothing
    else, no push and no metric; no run is longer than [3 N + 5] steps; when
    the loop of [pushRequests] over the units of the batch meets no server
    error, every run can be brought to the return of [consume] with nil; and
    at the return of a run none of whose pushes was classified as a server
    error, whatever the sink would answer to other requests, [consume]
    returns nil, the sink has been pushed to once for each of the other
    [N - 1] records, in batch order, the total counter and the histogram
    have advanced [N - 1] times, and that log line is the only error-level
    line written. *)
Theorem C3_undecodable_record_skipped (k : nat) (rk : record.t)
        (cs : list choice) (s : state) :
  nth_error records k = Some rk ->
  decodes rk = false ->
  (forall j r, nth_error records j = Some r -> j <> k -> decodes r = true) ->
  uncancelled cs ->
  run cs (consume records w0) = Some s ->
  exists e,
    snd (Unmarshal (record.content rk)) = Some e /\
    (forall i w,
        iteration derived i (parseRecord rk) w
        = (((i + 1)%Z, None),
           snd (Log (parseFailedEntry
                       (Wrap e "parsing ingest consumer write request"%string))
                    w))) /\
    (length cs <= 3 * length records + 5)%nat /\
    (fst (pushRequests derived (unmarshalRequests records) w0) = None ->
     exists cs' s',
       uncancelled (cs ++ cs') /\
       run (cs ++ cs') (consume records w0) = Some s' /\
       returned s' = Some None) /\
    (forall res,
        returned s = Some res ->
        Forall (fun c => serverCall c = false) (calls s) ->
        res = None /\
        length (calls s) = (length records - 1)%nat /\
        map callArgs (calls s)
        = map pushArgs (firstn k records ++ skipn (S k) records) /\
        totalRequests (W s) = totalRequests w0 + (length records - 1) /\
        length (processingTimeSeconds (W s))
        = length (processingTimeSeconds w0) + (length records - 1) /\
        filter (atLevel LevelError) (l (W s))
        = filter (atLevel LevelError) (l w0)
            ++ [parseFailedEntry
                  (Wrap e "parsing ingest consumer write request"%string)]).
Proof.
  intros Hk Hbad Hothers Hu Hrun.
  destruct (decodes_false _ Hbad) as (e & Hun & Herr).
  exists e. split; [exact Hun|]. split; [|split; [|split]].
  - intros i w. unfold iteration. rewrite Herr.
    unfold bind, ret, Log. reflexivity.
  - eapply run_bounded; exact Hrun.
  - intros Hnil. eapply can_return_nil; eassumption.
  - intros res Hret HF.
    destruct (no_abort Hu Hrun Hret HF) as [-> Hrec].
    destruct (consume_result _ Hrun (returned_outcome _ Hret))
      as (He & Hargs & _).
    rewrite Hrec in *.
    rewrite (filter_all_but _ Hk Hbad Hothers) in Hargs.
    assert (Hlen : length (calls s) = (length records - 1)%nat).
    { apply (f_equal (@length _)) in Hargs.
      rewrite !length_map, length_app, length_firstn, length_skipn
        in Hargs.
      assert (k < length records)%nat
        by (apply nth_error_Some; congruence).
      lia. }
    split; [reflexivity|]. split; [exact Hlen|].
    split; [exact Hargs|].
    split; [rewrite (eff_total He), Hlen; reflexivity|].
    split.
    + rewrite (eff_observed He), length_app, length_map, Hlen.
      reflexivity.
    + rewrite (eff_errors He).
      rewrite (decodeErrors_all_but _ Hk Herr Hothers). reflexivity.
Qed.

(** C4, for a caller's context that is not cancelled while [consume] runs.
    No run is longer than [3 N + 5] steps; when the loop of [pushRequests]
    over the units of the batch meets no server error, every run can be
    brought to the return of [consume] with nil; and at the return of a run
    none of whose pushes was classified as a server error, whatever the sink
    would answer to other requests, [consume] returns nil; every record that
    decodes has been pushed, in batch order, also those after a push that
    failed; the client-error counter has advanced once for each push that
    failed and the server-error counter not at all; and the warnings written
    are, in order, one for each failed push for which [shouldLog], given the
    context of the push, its error and the time it took, answered yes. *)
Theorem C4_client_error_continues (cs : list choice) (s : state) :
  uncancelled cs ->
  run cs (consume records w0) = Some s ->
  (length cs <= 3 * length records + 5)%nat /\
  (fst (pushRequests derived (unmarshalRequests records) w0) = None ->
   exists cs' s',
     uncancelled (cs ++ cs') /\
     run (cs ++ cs') (consume records w0) = Some s' /\
     returned s' = Some None) /\
  (forall res,
      returned s = Some res ->
      Forall (fun c => serverCall c = false) (calls s) ->
      res = None /\
      map callArgs (calls s) = map pushArgs (filter decodes records) /\
      clientErrRequests (W s)
      = clientErrRequests w0 + length (filter failedCall (calls s)) /\
      serverErrRequests (W s) = serverErrRequests w0 /\
      filter (atLevel LevelWarn) (l (W s))
      = filter (atLevel LevelWarn) (l w0) ++ flat_map warnings (calls s) /\
      (forall c e,
          In c (calls s) -> callErr c = Some e ->
          exists tenant,
            callCtx c = InjectOrgID derived tenant /\
            warnings c
            = if shouldLog (callCtx c) e (callElapsed c)
              then [clientErrorEntry e tenant]
              else [])).
Proof.
  intros Hu Hrun. split; [eapply run_bounded; exact Hrun|].
  split; [intros Hnil; eapply can_return_nil; eassumption|].
  intros res Hret HF.
  destruct (no_abort Hu Hrun Hret HF) as [-> Hrec].
  destruct (consume_result _ Hrun (returned_outcome _ Hret))
    as (He & Hargs & _).
  rewrite Hrec in *.
  assert (Hclient : forall c e, In c (calls s) -> callErr c = Some e ->
                               IsClientError e = true).
  { intros c e Hin Hce. eapply nonserver_client; eassumption. }
  split; [reflexivity|]. split; [exact Hargs|].
  split; [|split; [|split]].
  - rewrite (eff_client He). f_equal. f_equal.
    apply filter_ext_in. intros c Hin.
    unfold clientCall, failedCall.
    destruct (callErr c) as [e|] eqn:Hce; [|reflexivity].
    eapply Hclient; eassumption.
  - rewrite (eff_server He).
    rewrite (filter_none _ HF). simpl. lia.
  - exact (eff_warnings He).
  - intros c e Hin Hce.
    assert (Hctx : exists tenant,
               callCtx c = InjectOrgID derived tenant).
    { assert (Hin' : In (callArgs c) (map callArgs (calls s)))
        by (apply in_map; exact Hin).
      rewrite Hargs in Hin'. apply in_map_iff in Hin'.
      destruct Hin' as (r & Hr & _).
      exists (record.tenantID r).
      unfold callArgs, pushArgs in Hr. inversion Hr. reflexivity. }
    destruct Hctx as [tenant Htenant]. exists tenant.
    split; [exact Htenant|].
    unfold warnings. rewrite Hce, (Hclient _ _ Hin Hce).
    rewrite Htenant. simpl. reflexivity.
Qed.

Lemma filter_split_length {A} (f : A -> bool) (xs : list A) :
  (length (filter f xs) + length (filter (fun x => negb (f x)) xs)
   = length xs)%nat.
Proof.
  induction xs as [|x xs IH]; simpl; [reflexivity|].
  destruct (f x); simpl; lia.
Qed.

Lemma processed_received (s : state) :
  Inv s ->
  processed s = map parseRecord (firstn (length (processed s)) records).
Proof.
  intros HI. unfold processed.
  destruct (consumer s) as [i|i wr|res|res] eqn:Hcon;
    try (apply sent_received; exact HI).
  pose proof HI as [_ _ Hc _]. rewrite Hcon in Hc.
  destruct Hc as (h & Hh & _).
  destruct (@sent_snoc s h wr HI Hh) as (_ & _ & _ & _ & Hmap).
  rewrite Hh, removelast_last. exact Hmap.
Qed.

(** C5, with the records left unconsumed at a cancellation counted too.
    One run of the loop body for a unit that decoded pushes once and then,
    whatever the push returned, observes the time measured around the push
    once and increments the total counter once; for a unit that did not
    decode it does none of the three.  So in every state of every run the
    total counter has advanced by the number of pushes made and the
    histogram has one observation per push, in order.  At the return of
    [consume] that number is the batch size less the units skipped for a
    decode error and less the records never consumed, and records are left
    unconsumed only after a server error or a cancellation of the caller's
    context. *)
Theorem C5_total_counts_pushes (cs : list choice) (s : state) :
  run cs (consume records w0) = Some s ->
  (forall i u w,
      err u = None ->
      env (snd (iteration derived i u w))
      = snd (PushToStorage (InjectOrgID derived (tenantID u))
                           (payload u) (env w)) /\
      totalRequests (snd (iteration derived i u w))
      = S (totalRequests w) /\
      processingTimeSeconds (snd (iteration derived i u w))
      = processingTimeSeconds w
          ++ [(now (env (snd (iteration derived i u w)))
               - now (env w))%Z] /\
      exists c,
        pushed (snd (iteration derived i u w)) = pushed w ++ [c] /\
        callErr c
        = fst (PushToStorage (InjectOrgID derived (tenantID u))
                             (payload u) (env w))) /\
  (forall i u w,
      err u <> None ->
      env (snd (iteration derived i u w)) = env w /\
      totalRequests (snd (iteration derived i u w))
      = totalRequests w /\
      processingTimeSeconds (snd (iteration derived i u w))
      = processingTimeSeconds w /\
      pushed (snd (iteration derived i u w)) = pushed w) /\
  pushed (W s) = pushed w0 ++ calls s /\
  totalRequests (W s) = totalRequests w0 + length (calls s) /\
  processingTimeSeconds (W s)
  = processingTimeSeconds w0 ++ map callElapsed (calls s) /\
  (forall res,
      returned s = Some res ->
      (length (calls s)
       + length (filter (fun r => negb (decodes r)) (received s))
       + length (remaining s)
       = length records)%nat /\
      (remaining s = [] \/ (exists e, res = Some e) \/ In ParentCancel cs)).
Proof.
  intros Hrun. pose proof (Inv_run _ Hrun) as HI.
  destruct (reached_effects HI) as [He _].
  split; [|split; [|split; [|split; [|split]]]].
  - intros i u w Hu.
    unfold iteration, bind, ret, timeNow, callPushToStorage, notePush,
      Observe, Inc_totalRequests, Inc_serverErrRequests,
      Inc_clientErrRequests, Log.
    rewrite Hu. simpl.
    destruct (PushToStorage (InjectOrgID derived (tenantID u))
                            (payload u) (env w)) as [res env'].
    simpl.
    destruct res as [e|]; simpl;
      [destruct (IsClientError e); simpl;
       [destruct (shouldLog (InjectOrgID derived (tenantID u)) e
                            (now env' - now (env w))); simpl|]|];
      repeat split; eauto.
  - intros i u w Hu.
    unfold iteration, bind, ret, Log.
    destruct (err u) as [e|]; [|congruence]. simpl. auto.
  - exact (eff_pushed He).
  - exact (eff_total He).
  - exact (eff_observed He).
  - intros res Hret.
    destruct (consume_result _ Hrun (returned_outcome _ Hret))
      as (_ & Hargs & Hres).
    split.
    + apply (f_equal (@length _)) in Hargs.
      rewrite !length_map in Hargs. rewrite Hargs.
      rewrite filter_split_length.
      pose proof (received_remaining s) as Hrr.
      apply (f_equal (@length _)) in Hrr.
      rewrite length_app in Hrr. exact Hrr.
    + destruct res as [e|]; [right; left; eauto|].
      destruct Hres as [_ [Hrec|Hc]]; [left | right; right; exact Hc].
      pose proof (received_remaining s) as Hrr.
      rewrite Hrec in Hrr.
      apply (f_equal (@length _)) in Hrr.
      rewrite length_app in Hrr.
      destruct (remaining s); [reflexivity | simpl in Hrr; lia].
Qed.


(** C7.  The return of [consume], with whatever result, runs the deferred
    [cancel] with the cause "done consuming records"; so once [consume] has
    returned, on whatever path, the derived context is cancelled, and its
    cause is that one unless the caller's context was cancelled first (the
    first cause of a context stays).  The decoder looks at the cancellation
    in its select and nowhere else: at the head of its loop it unmarshals
    the next record
    whether or not the context is cancelled and cannot take the [<-done]
    case; in the select the [<-done] case needs the context cancelled, and
    taking it the decoder returns, closing [recC], and no further record is
    unmarshalled or sent.  And no run leaves the decoder blocked: no run is
    longer than [3 N + 5] steps and every run can be continued until both
    goroutines have finished. *)
Theorem C7_cancellation (cs : list choice) (s : state) :
  run cs (consume records w0) = Some s ->
  (forall res,
      returned s = Some res ->
      ctxCause s <> None /\
      (uncancelled cs -> ctxCause s = Some DoneConsumingRecords)) /\
  (forall r rest,
      decoder s = DLoop (r :: rest) ->
      step DecDone s = None /\
      exists s',
        step DecUnmarshal s = Some s' /\
        decoder s' = DSelect (parseRecord r) rest /\
        ctxCause s' = ctxCause s) /\
  (forall s',
      step DecDone s = Some s' ->
      (exists pRecord rest, decoder s = DSelect pRecord rest) /\
      ctxCause s <> None /\
      decoder s' = DReturned /\
      recC_closed s' = true /\
      forall cs2 s2,
        run cs2 s' = Some s2 ->
        decoder s2 = DReturned /\ recC_sent s2 = recC_sent s) /\
  (forall s',
      step ConsumeReturn s = Some s' ->
      returned s' = outcome s /\
      ctxCause s' = cancelWith DoneConsumingRecords (ctxCause s)) /\
  (length cs <= 3 * length records + 5)%nat /\
  (exists cs' s',
      ~ In ParentCancel cs' /\
      run (cs ++ cs') (consume records w0) = Some s' /\
      finished s' = true).
Proof.
  intros Hrun.
  pose proof (Inv_run _ Hrun) as HI.
  pose proof HI as [Hs Hd Hc Hk].
  split; [|split; [|split; [|split; [|split]]]].
  - intros res Hret. unfold returned in Hret.
    destruct (consumer s) as [i|i wr|r|r] eqn:Hcon; try discriminate.
    split; [exact Hk|]. intros Hu.
    assert (Hnp : ctxCause s <> Some ParentCanceled)
      by (eapply uncancelled_cause; eassumption).
    destruct (ctxCause s) as [[|]|]; congruence.
  - intros r rest Hdec. simpl. rewrite Hdec.
    split; [reflexivity|]. eexists. split; [reflexivity|].
    simpl. auto.
  - intros s' Hst. simpl in Hst.
    destruct (decoder s) as [rest|p rest|] eqn:Hdec; try discriminate.
    destruct (ctxCause s) as [cc|] eqn:Hcc; try discriminate.
    inversion Hst; subst s'; clear Hst. simpl.
    split; [eauto|]. split; [discriminate|].
    split; [reflexivity|]. split; [reflexivity|].
    intros cs2 s2 Hrun2.
    apply (decoder_returned_stays _ _ Hrun2). reflexivity.
  - intros s' Hst. simpl in Hst. unfold returned, outcome.
    destruct (consumer s) as [i|i wr|r|r]; try discriminate.
    inversion Hst; subst s'; simpl. auto.
  - eapply run_bounded. exact Hrun.
  - eapply run_can_finish. exact Hrun.
Qed.

(** C8.  In every state of every run the decoder is at most one record
    ahead of the pusher: at the head of its loop every record it has
    unmarshalled has been received by the pusher, and in its select exactly
    one, the unit it offers, has not; [recC] holds nothing.  The pusher has
    run the body of its loop for every unit it received but the one it is
    working on, so it takes the next unit only when the push of the previous
    one is over; and the pushes made so far are those of the records of a
    prefix of the batch that decode, in batch order. *)
Theorem C8_pipeline_depth_one (cs : list choice) (s : state) :
  run cs (consume records w0) = Some s ->
  match decoder s with
  | DLoop rest =>
      (length (recC_sent s) + length rest = length records)%nat
  | DSelect _ rest =>
      (length (recC_sent s) + 1 + length rest = length records)%nat
  | DReturned => (length (recC_sent s) <= length records)%nat
  end /\
  (length (processed s)
   + match consumer s with
     | PBody _ _ => 1
     | _ => 0
     end
   = length (recC_sent s))%nat /\
  map callArgs (calls s)
  = map pushArgs (filter decodes (firstn (length (processed s)) records)).
Proof.
  intros Hrun.
  pose proof (Inv_run _ Hrun) as HI.
  pose proof HI as [Hs Hd Hc Hk].
  pose proof (received_remaining s) as Hrr.
  pose proof (received_length HI) as Hrl.
  apply (f_equal (@length _)) in Hrr. rewrite length_app, Hrl in Hrr.
  split; [|split].
  - destruct (decoder s) as [rest|p rest|].
    + destruct Hd as [-> _]. exact Hrr.
    + destruct Hd as [(r & Hr & _) _]. rewrite Hr in Hrr.
      simpl in Hrr. lia.
    + lia.
  - unfold processed.
    destruct (consumer s) as [i|i wr|res|res]; try lia.
    destruct Hc as (h & Hh & _).
    rewrite Hh, removelast_last, length_app. simpl. lia.
  - destruct (reached_effects HI) as [He _].
    rewrite (eff_args He).
    rewrite (processed_received HI) at 1.
    apply args_of_records.
Qed.

(** ** Further properties of the batch consumer *)

(** X1.  [consume] is [pushRequests] after [unmarshalRequests]: when
    [consume] returns an error, or returns nil with the caller's context
    never cancelled, its result and the world it leaves (sink history,
    counters, histogram, log, environment) are those of the loop of
    [pushRequests] run over the units of the whole batch in order.  So the
    interleaving of the two goroutines shows in nothing. *)
Theorem X1_consume_is_sequential (cs : list choice) (s : state)
        (res : option (error E)) :
  run cs (consume records w0) = Some s ->
  returned s = Some res ->
  uncancelled cs \/ (exists e, res = Some e) ->
  pushRequests derived (unmarshalRequests records) w0 = (res, W s).
Proof.
  apply returned_is_sequential.
Qed.

(** *** What the sink saw, and what was logged, in full *)

(** The pushes a sink answers when it is handed these arguments one after
    the other, starting in the environment [e]: each with the error the sink
    returns and the time the clock shows it took; and the environment the
    last one leaves. *)
Fixpoint sinkTrace (args : list (context Ctx * WriteRequest)) (e : Env)
  : list pushCall * Env :=
  match args with
  | [] => ([], e)
  | (c, wr) :: rest =>
      let (res, e') := PushToStorage c wr e in
      let (cl, e'') := sinkTrace rest e' in
      ({| callCtx := c; callReq := wr; callErr := res;
          callElapsed := (now e' - now e)%Z |} :: cl,
       e'')
  end.

(** The lines the loop of [pushRequests] writes for these units, given the
    pushes it made for those that decoded: the line of the decode failure
    for a unit that carries an error, the warning of its push, if any, for
    one that does not. *)
Fixpoint logOf (us : list parsedRecord) (cl : list pushCall)
  : list (logEntry E) :=
  match us with
  | [] => []
  | u :: us' =>
      match err u with
      | Some e => parseFailedEntry e :: logOf us' cl
      | None =>
          match cl with
          | c :: cl' => warnings c ++ logOf us' cl'
          | [] => []
          end
      end
  end.

Lemma sinkTrace_app (a b : list (context Ctx * WriteRequest)) :
  forall e,
    sinkTrace (a ++ b) e
    = (fst (sinkTrace a e) ++ fst (sinkTrace b (snd (sinkTrace a e))),
       snd (sinkTrace b (snd (sinkTrace a e)))).
Proof.
  induction a as [|[c wr] a IH]; intros e; simpl.
  - destruct (sinkTrace b e); reflexivity.
  - destruct (PushToStorage c wr e) as [res e'].
    rewrite IH.
    destruct (sinkTrace a e') as [cl e'']. simpl.
    reflexivity.
Qed.

Lemma logOf_app (a b : list parsedRecord) :
  forall ca cb,
    length ca = length (filter decoded a) ->
    logOf (a ++ b) (ca ++ cb) = logOf a ca ++ logOf b cb.
Proof.
  induction a as [|u a IH]; intros ca cb Hlen; simpl in *.
  - destruct ca; [reflexivity | discriminate].
  - unfold decoded in Hlen at 1.
    destruct (err u) as [e|]; simpl in *.
    + rewrite IH by exact Hlen. reflexivity.
    + destruct ca as [|c ca]; [discriminate|]. simpl.
      rewrite IH by (inversion Hlen; reflexivity).
      rewrite app_assoc. reflexivity.
Qed.

(** A property of the world that holds over no unit, holds over one run of
    the loop body, and composes, holds over what a run has processed. *)
Lemma rangeLoop_lift (P : list parsedRecord -> world -> world -> Prop) :
  (forall w, P [] w w) ->
  (forall a b w w1 w2, P a w w1 -> P b w1 w2 -> P (a ++ b) w w2) ->
  (forall i u w, P [u] w (snd (iteration derived i u w))) ->
  forall us i j w w',
    rangeLoop derived i us w = ((j, None), w') -> P us w w'.
Proof.
  intros Hnil Happ Hone.
  induction us as [|u us IH]; intros i j w w' H; simpl in H.
  - unfold ret in H. inversion H; subst. apply Hnil.
  - unfold bind in H.
    pose proof (Hone i u w) as H1.
    destruct (iteration derived i u w) as [[i' [e|]] w1]; simpl in *.
    + unfold ret in H. inversion H.
    + change (u :: us) with ([u] ++ us).
      eapply Happ; [exact H1|]. eapply IH. exact H.
Qed.

Lemma reached_lift (P : list parsedRecord -> world -> world -> Prop) :
  (forall w, P [] w w) ->
  (forall a b w w1 w2, P a w w1 -> P b w1 w2 -> P (a ++ b) w w2) ->
  (forall i u w, P [u] w (snd (iteration derived i u w))) ->
  forall s, Inv s -> P (processed s) w0 (W s).
Proof.
  intros Hnil Happ Hone s [Hs Hd Hc Hk]. unfold processed.
  assert (Hfail : forall e h wr i w1,
    recC_sent s = h ++ [wr] ->
    rangeLoop derived (-1)%Z h w0 = ((i, None), w1) ->
    iteration derived i wr w1 = (((i + 1)%Z, Some e), W s) ->
    P (recC_sent s) w0 (W s)).
  { intros e h wr i w1 Hh Hrun Hit. rewrite Hh.
    eapply Happ; [eapply rangeLoop_lift; eassumption|].
    pose proof (Hone i wr w1) as H1. rewrite Hit in H1. exact H1. }
  destruct (consumer s) as [i|i wr|[e|]|[e|]].
  - eapply rangeLoop_lift; eassumption.
  - destruct Hc as (h & Hh & Hrun).
    rewrite Hh, removelast_last. eapply rangeLoop_lift; eassumption.
  - destruct Hc as (h & wr & i & w1 & Hh & Hrun & Hit).
    eapply Hfail; eassumption.
  - destruct Hc as (_ & (i & Hrun) & _). eapply rangeLoop_lift; eassumption.
  - destruct Hc as (h & wr & i & w1 & Hh & Hrun & Hit).
    eapply Hfail; eassumption.
  - destruct Hc as (_ & (i & Hrun) & _). eapply rangeLoop_lift; eassumption.
Qed.

(** What one run of the loop body does to the sink and to the log. *)
Lemma iteration_trace (i : Z) (u : parsedRecord) (w : world) :
  exists cl,
    pushed (snd (iteration derived i u w)) = pushed w ++ cl /\
    length cl = length (filter decoded [u]) /\
    sinkTrace (map callArgs cl) (env w)
    = (cl, env (snd (iteration derived i u w))) /\
    l (snd (iteration derived i u w)) = l w ++ logOf [u] cl.
Proof.
  unfold iteration, bind, ret, timeNow, callPushToStorage, notePush,
    Observe, Inc_totalRequests, Inc_serverErrRequests,
    Inc_clientErrRequests, Log, decoded.
  destruct (err u) as [e|] eqn:Hu; simpl.
  - exists []. simpl. rewrite Hu, app_nil_r. auto.
  - destruct (PushToStorage (InjectOrgID derived (tenantID u)) (payload u)
                            (env w)) as [res env'] eqn:Hp.
    simpl.
    exists [{| callCtx := InjectOrgID derived (tenantID u);
               callReq := payload u;
               callErr := res;
               callElapsed := (now env' - now (env w))%Z |}].
    unfold warnings. simpl. rewrite Hu, Hp. simpl.
    destruct res as [e|]; simpl;
      [destruct (IsClientError e); simpl;
       [destruct (shouldLog (InjectOrgID derived (tenantID u)) e
                            (now env' - now (env w))); simpl|]|];
      rewrite ?app_nil_r; auto.
Qed.

Lemma reached_trace (s : state) :
  Inv s ->
  length (calls s) = length (filter decoded (processed s)) /\
  sinkTrace (map callArgs (calls s)) (env w0) = (calls s, env (W s)) /\
  l (W s) = l w0 ++ logOf (processed s) (calls s).
Proof.
  intros HI.
  assert (H : exists cl,
             pushed (W s) = pushed w0 ++ cl /\
             length cl = length (filter decoded (processed s)) /\
             sinkTrace (map callArgs cl) (env w0) = (cl, env (W s)) /\
             l (W s) = l w0 ++ logOf (processed s) cl).
  { apply (reached_lift
             (fun us w w' =>
                exists cl,
                  pushed w' = pushed w ++ cl /\
                  length cl = length (filter decoded us) /\
                  sinkTrace (map callArgs cl) (env w) = (cl, env w') /\
                  l w' = l w ++ logOf us cl)).
    - intros w. exists []. simpl. rewrite !app_nil_r. auto.
    - intros a b w w1 w2 (ca & Ha1 & Ha2 & Ha3 & Ha4)
             (cb & Hb1 & Hb2 & Hb3 & Hb4).
      exists (ca ++ cb). repeat split.
      + rewrite Hb1, Ha1, app_assoc. reflexivity.
      + rewrite filter_app, !length_app. lia.
      + rewrite map_app, sinkTrace_app, Ha3. simpl. rewrite Hb3.
        reflexivity.
      + rewrite Hb4, Ha4, (@logOf_app a b ca cb Ha2), app_assoc. reflexivity.
    - intros i u w. apply iteration_trace.
    - exact HI. }
  destruct H as (cl & H1 & H2 & H3 & H4).
  rewrite (pushed_calls s _ H1). auto.
Qed.

(** X2.  The sink is driven by the pushes and by nothing else: in every
    state of every run the environment is the one the sink leaves after
    answering, one after the other from the environment [consume] started
    in, the pushes made so far; the error recorded for each push is the one
    the sink returned at its turn, and the time observed for it is the
    difference of the clock over that push. *)
Theorem X2_sink_sees_only_the_pushes (cs : list choice) (s : state) :
  run cs (consume records w0) = Some s ->
  sinkTrace (map callArgs (calls s)) (env w0) = (calls s, env (W s)) /\
  processingTimeSeconds (W s)
  = processingTimeSeconds w0
      ++ map callElapsed
           (fst (sinkTrace (map callArgs (calls s)) (env w0))).
Proof.
  intros Hrun. pose proof (Inv_run _ Hrun) as HI.
  destruct (reached_trace HI) as (_ & Ht & _).
  split; [exact Ht|].
  rewrite Ht. simpl.
  destruct (reached_effects HI) as [He _]. exact (eff_observed He).
Qed.

(** X3.  The log in full and in order: in every state of every run the
    lines written since [consume] was called are, unit by unit in batch
    order over the units the loop body has run for, the line of the decode
    failure for a unit that did not decode and, for one that did, the
    warning of its push if it returned a client error that [shouldLog] lets
    through, and nothing otherwise.  A push that succeeds and a push that
    fails with a server error write nothing. *)
Theorem X3_log_follows_the_batch (cs : list choice) (s : state) :
  run cs (consume records w0) = Some s ->
  l (W s) = l w0 ++ logOf (processed s) (calls s) /\
  length (calls s) = length (filter decoded (processed s)) /\
  (forall c,
      In c (calls s) ->
      (callErr c = None \/ serverCall c = true) -> warnings c = []).
Proof.
  intros Hrun. pose proof (Inv_run _ Hrun) as HI.
  destruct (reached_trace HI) as (Hlen & _ & Hlog).
  split; [exact Hlog|]. split; [exact Hlen|].
  intros c _ [Hn|Hsv]; unfold warnings, serverCall in *.
  - rewrite Hn. reflexivity.
  - destruct (callErr c) as [e|]; [|reflexivity].
    destruct (IsClientError e); [discriminate|].
    destruct (ExtractOrgID (callCtx c)); reflexivity.
Qed.

(** *** The error counters *)

Lemma failed_client_or_server (cl : list pushCall) :
  (length (filter failedCall cl)
   = length (filter clientCall cl) + length (filter serverCall cl))%nat.
Proof.
  induction cl as [|c cl IH]; simpl; [reflexivity|].
  unfold failedCall, clientCall, serverCall.
  destruct (callErr c) as [e|]; [|exact IH].
  destruct (IsClientError e); simpl;
    unfold failedCall, clientCall, serverCall in IH; lia.
Qed.

Lemma filter_length_bound {A} (f : A -> bool) (xs : list A) :
  (length (filter f xs) <= length xs)%nat.
Proof.
  pose proof (filter_split_length f xs). lia.
Qed.

(** X4.  Every push that returns an error is counted once, in one of the
    two error counters: in every state of every run the client-error
    counter has advanced by the number of pushes that returned a client
    error, the server-error counter by one if [pushRequests] has returned
    an error and by nothing otherwise, the two together by the number of
    pushes that returned an error, and that number is at most the advance
    of the total counter. *)
Theorem X4_failed_pushes_counted_once (cs : list choice) (s : state) :
  run cs (consume records w0) = Some s ->
  clientErrRequests (W s)
  = clientErrRequests w0 + length (filter clientCall (calls s)) /\
  serverErrRequests (W s)
  = serverErrRequests w0
    + match outcome s with
      | Some (Some _) => 1
      | _ => 0
      end /\
  (clientErrRequests (W s) + serverErrRequests (W s)
   = clientErrRequests w0 + serverErrRequests w0
     + length (filter failedCall (calls s)))%nat /\
  (clientErrRequests w0 + serverErrRequests w0 + totalRequests (W s)
   >= clientErrRequests (W s) + serverErrRequests (W s) + totalRequests w0)%nat.
Proof.
  intros Hrun. pose proof (Inv_run _ Hrun) as HI.
  destruct (reached_effects HI) as [He Hm].
  assert (Hsv : length (filter serverCall (calls s))
                = match outcome s with
                  | Some (Some _) => 1%nat
                  | _ => 0%nat
                  end).
  { unfold outcome.
    destruct (consumer s) as [i|i wr|[e|]|[e|]];
      try (destruct Hm as [_ Hm]);
      try (rewrite (filter_none _ Hm); reflexivity).
    - destruct Hm as (h & u & c0 & c & e0 & _ & Hcl & Hns & _ & _ & Hce
                      & Hic & _).
      rewrite Hcl, filter_app, (filter_none _ Hns). simpl.
      unfold serverCall. rewrite Hce, Hic. reflexivity.
    - destruct Hm as (h & u & c0 & c & e0 & _ & Hcl & Hns & _ & _ & Hce
                      & Hic & _).
      rewrite Hcl, filter_app, (filter_none _ Hns). simpl.
      unfold serverCall. rewrite Hce, Hic. reflexivity. }
  pose proof (failed_client_or_server (calls s)) as Hf.
  pose proof (filter_length_bound failedCall (calls s)) as Hb.
  pose proof (eff_client He) as H1.
  pose proof (eff_server He) as H2.
  pose proof (eff_total He) as H3.
  rewrite Hsv in H2.
  split; [exact H1|]. split; [exact H2|]. split; lia.
Qed.

(** *** After the return *)

Lemma step_after_return (c : choice) (s s' : state)
      (res : option (error E)) (cc : cancelCause) :
  consumer s = CReturned res ->
  ctxCause s = Some cc ->
  step c s = Some s' ->
  W s' = W s /\
  consumer s' = CReturned res /\
  recC_sent s' = recC_sent s /\
  ctxCause s' = Some cc /\
  match c with
  | DecUnmarshal =>
      exists r rest,
        decoder s = DLoop (r :: rest) /\
        decoder s' = DSelect (parseRecord r) rest
  | DecExhausted => decoder s = DLoop [] /\ decoder s' = DReturned
  | DecDone =>
      (exists p rest, decoder s = DSelect p rest) /\ decoder s' = DReturned
  | _ => False
  end.
Proof.
  intros Hcon Hcc Hst.
  destruct c; simpl in Hst; rewrite ?Hcon, ?Hcc in Hst;
    try discriminate.
  - destruct (decoder s) as [[|r rest]| |] eqn:Hdec; try discriminate.
    inversion Hst; subst s'; simpl. repeat split; eauto.
  - destruct (decoder s) as [[|r rest]| |] eqn:Hdec; try discriminate.
    inversion Hst; subst s'; simpl. repeat split; eauto.
  - destruct (decoder s) as [rest|p rest|] eqn:Hdec; try discriminate.
    inversion Hst; subst s'; simpl. repeat split; eauto.
  - destruct (decoder s); discriminate.
Qed.

(** X5.  What is left to happen once [consume] has returned: the decoder
    goroutine, if it has not returned yet, unmarshals at most one more
    record, finds the context cancelled in its select and returns.  Nothing
    else can happen, and nothing it does shows: the world, the result, what
    went over [recC] and the cause of the cancellation stay as they were at
    the return. *)
Theorem X5_after_return (cs cs2 : list choice) (s s2 : state)
        (res : option (error E)) :
  run cs (consume records w0) = Some s ->
  returned s = Some res ->
  run cs2 s = Some s2 ->
  W s2 = W s /\
  returned s2 = Some res /\
  recC_sent s2 = recC_sent s /\
  ctxCause s2 = ctxCause s /\
  (cs2 = [] \/ cs2 = [DecExhausted] \/ cs2 = [DecDone] \/
   cs2 = [DecUnmarshal] \/ cs2 = [DecUnmarshal; DecDone]).
Proof.
  intros Hrun Hret Hrun2.
  pose proof (Inv_run _ Hrun) as [_ _ _ Hk].
  unfold returned in *.
  destruct (consumer s) as [i|i wr|r|r] eqn:Hcon; try discriminate.
  inversion Hret; subst r; clear Hret.
  destruct (ctxCause s) as [cc|] eqn:Hcc; [|congruence]. clear Hk.
  destruct cs2 as [|c1 cs2]; simpl in Hrun2.
  { inversion Hrun2; subst s2. rewrite Hcon, Hcc. auto 10. }
  destruct (step c1 s) as [s1|] eqn:Hst1; [|discriminate].
  destruct (step_after_return _ _ Hcon Hcc Hst1)
    as (Hw1 & Hcon1 & Hsent1 & Hcc1 & Hc1).
  destruct cs2 as [|c2 cs2]; simpl in Hrun2.
  { inversion Hrun2; subst s2. rewrite Hcon1, Hcc1.
    repeat split; auto.
    destruct c1; try contradiction; auto 10. }
  destruct (step c2 s1) as [s1'|] eqn:Hst2; [|discriminate].
  destruct (step_after_return _ _ Hcon1 Hcc1 Hst2)
    as (Hw2 & Hcon2 & Hsent2 & Hcc2 & Hc2).
  assert (Hboth : c1 = DecUnmarshal /\ c2 = DecDone /\
                  decoder s1' = DReturned).
  { destruct c1; try contradiction.
    - destruct Hc1 as (r & rest & _ & Hd1).
      destruct c2; try contradiction.
      + destruct Hc2 as (r' & rest' & Hd & _). congruence.
      + destruct Hc2 as [Hd _]. congruence.
      + destruct Hc2 as [_ Hd]. auto.
    - destruct Hc1 as [_ Hd1].
      destruct c2; try contradiction.
      + destruct Hc2 as (r' & rest' & Hd & _). congruence.
      + destruct Hc2 as [Hd _]. congruence.
      + destruct Hc2 as [(p & rest & Hd) _]. congruence.
    - destruct Hc1 as [_ Hd1].
      destruct c2; try contradiction.
      + destruct Hc2 as (r' & rest' & Hd & _). congruence.
      + destruct Hc2 as [Hd _]. congruence.
      + destruct Hc2 as [(p & rest & Hd) _]. congruence. }
  destruct Hboth as (-> & -> & Hd2).
  destruct cs2 as [|c3 cs2]; simpl in Hrun2.
  { inversion Hrun2; subst s2. rewrite Hcon2, Hcc2.
    repeat split; auto 10; congruence. }
  exfalso.
  destruct (step c3 s1') as [s3|] eqn:Hst3; [|discriminate].
  destruct (step_after_return _ _ Hcon2 Hcc2 Hst3) as (_ & _ & _ & _ & Hc3).
  destruct c3; try contradiction.
  - destruct Hc3 as (r' & rest' & Hd & _). congruence.
  - destruct Hc3 as [Hd _]. congruence.
  - destruct Hc3 as [(p & rest & Hd) _]. congruence.
Qed.

(** *** A cancellation drops the rest of the batch without a word *)

(** The schedule that takes [n] records through one after the other:
    unmarshal, hand over, push. *)
Fixpoint sequential (n : nat) : list choice :=
  match n with
  | O => []
  | S n' => DecUnmarshal :: Handoff :: PushBody :: sequential n'
  end.

(** [m] records one after the other, then the caller's context is
    cancelled; the decoder unmarshals the next record, finds the
    cancellation in its select and returns; the pusher finds [recC] closed;
    [consume] returns. *)
Definition truncatedAt (m : nat) : list choice :=
  sequential m
    ++ [ParentCancel; DecUnmarshal; DecDone; RangeClosed; ConsumeReturn].

Lemma run_sequential (a : list record.t) :
  forall rest i j closed sent cause w w',
    rangeLoop derived i (map parseRecord a) w = ((j, None), w') ->
    run (sequential (length a))
        {| decoder := DLoop (a ++ rest); consumer := PRange i;
           recC_closed := closed; recC_sent := sent;
           ctxCause := cause; W := w |}
    = Some {| decoder := DLoop rest; consumer := PRange j;
              recC_closed := closed;
              recC_sent := sent ++ map parseRecord a;
              ctxCause := cause; W := w' |}.
Proof.
  induction a as [|r a IH]; intros rest i j closed sent cause w w' H;
    simpl in *.
  - unfold ret in H. inversion H; subst. rewrite app_nil_r. reflexivity.
  - unfold bind in H.
    destruct (iteration derived i (parseRecord r) w) as [[i' [e|]] w1];
      simpl in *.
    + unfold ret in H. inversion H.
    + rewrite (IH _ _ _ _ _ _ _ _ H).
      rewrite <- app_assoc. reflexivity.
Qed.

(** X6.  A cancellation of the caller's context is not reported: whenever
    the first [m] records of the batch, [m] less than its size, go through
    [pushRequests] without a server error, there is a run, with the
    caller's context cancelled after them, in which [consume] returns nil,
    both goroutines finish, and the world is the one those [m] records
    leave: the other [N - m] records are neither pushed, nor counted, nor
    logged. *)
Theorem X6_cancellation_is_silent (m : nat) (w' : world) :
  (m < length records)%nat ->
  pushRequests derived (unmarshalRequests (firstn m records)) w0
  = (None, w') ->
  exists s,
    run (truncatedAt m) (consume records w0) = Some s /\
    finished s = true /\
    returned s = Some None /\
    W s = w' /\
    recC_sent s = unmarshalRequests (firstn m records) /\
    length (remaining s) = (length records - m)%nat.
Proof.
  intros Hm Hp.
  unfold pushRequests, bind, ret in Hp.
  destruct (rangeLoop derived (-1)%Z
                      (unmarshalRequests (firstn m records)) w0)
    as [[j o] w1] eqn:Hr.
  simpl in Hp. inversion Hp; subst o w1; clear Hp.
  unfold unmarshalRequests in *.
  destruct (skipn m records) as [|r rest] eqn:Hsk.
  { apply (f_equal (@length _)) in Hsk. rewrite length_skipn in Hsk.
    simpl in Hsk. lia. }
  assert (Hlen : length (firstn m records) = m)
    by (rewrite length_firstn; lia).
  pose proof (@run_sequential (firstn m records) (r :: rest) (-1)%Z j
                              false [] None w0 w' Hr) as Hseq.
  rewrite Hlen, <- Hsk, firstn_skipn in Hseq. simpl in Hseq.
  eexists. split.
  - unfold truncatedAt. rewrite run_app.
    unfold consume. rewrite Hseq. rewrite Hsk. simpl. reflexivity.
  - unfold finished, returned, remaining. simpl.
    repeat split.
    rewrite length_skipn, length_map, Hlen. reflexivity.
Qed.

(** *** Work done in vain *)

Definition isDecUnmarshal (c : choice) : bool :=
  match c with
  | DecUnmarshal => true
  | _ => false
  end.

Definition isDecDone (c : choice) : bool :=
  match c with
  | DecDone => true
  | _ => false
  end.

(** The number of steps of a schedule that pass [p]. *)
Definition countOf (p : choice -> bool) (cs : list choice) : nat :=
  length (filter p cs).

Lemma countOf_snoc (p : choice -> bool) (cs : list choice) (c : choice) :
  countOf p (cs ++ [c]) = (countOf p cs + if p c then 1 else 0)%nat.
Proof.
  unfold countOf. rewrite filter_app, length_app. simpl.
  destruct (p c); reflexivity.
Qed.

(** X9.  At most one record is unmarshalled in vain.  In every state of
    every run the records the decoder has unmarshalled so far are: those
    whose units the pusher has received, the one whose unit it offers in
    its select if it is there, and the one whose unit it dropped if it left
    by [<-done], which it does at most once. *)
Theorem X9_one_unmarshal_in_vain (cs : list choice) (s : state) :
  run cs (consume records w0) = Some s ->
  countOf isDecUnmarshal cs
  = (length (recC_sent s)
     + countOf isDecDone cs
     + match decoder s with
       | DSelect _ _ => 1
       | _ => 0
       end)%nat /\
  (countOf isDecDone cs
   <= match decoder s with
      | DReturned => 1
      | _ => 0
      end)%nat /\
  (countOf isDecUnmarshal cs <= length (recC_sent s) + 1)%nat.
Proof.
  intros Hrun.
  assert (H : countOf isDecUnmarshal cs
              = (length (recC_sent s)
                 + countOf isDecDone cs
                 + match decoder s with
                   | DSelect _ _ => 1
                   | _ => 0
                   end)%nat /\
              (countOf isDecDone cs
               <= match decoder s with
                  | DReturned => 1
                  | _ => 0
                  end)%nat).
  { revert cs s Hrun. apply run_snoc_ind.
    - simpl. split; reflexivity || lia.
    - intros cs s c s' _ [H1 H2] Hst.
      rewrite !countOf_snoc.
      destruct c; simpl in Hst; simpl.
      + destruct (decoder s) as [[|r rest]| |]; try discriminate.
        inversion Hst; subst s'; simpl in *. lia.
      + destruct (decoder s) as [[|r rest]| |]; try discriminate.
        inversion Hst; subst s'; simpl in *. lia.
      + destruct (decoder s) as [rest|p rest|]; try discriminate.
        destruct (ctxCause s); try discriminate.
        inversion Hst; subst s'; simpl in *. lia.
      + destruct (decoder s) as [rest|p rest|]; try discriminate.
        destruct (consumer s); try discriminate.
        inversion Hst; subst s'; simpl in *.
        rewrite length_app. simpl. lia.
      + destruct (consumer s); try discriminate.
        destruct (recC_closed s); try discriminate.
        inversion Hst; subst s'; simpl in *. lia.
      + destruct (consumer s) as [i|i wr|res|res]; try discriminate.
        destruct (iteration derived i wr (W s)) as [[i' o] w'].
        inversion Hst; subst s'; simpl in *. lia.
      + destruct (consumer s); try discriminate.
        inversion Hst; subst s'; simpl in *. lia.
      + destruct (ctxCause s); try discriminate.
        inversion Hst; subst s'; simpl in *. lia. }
  destruct H as [H1 H2]. split; [exact H1|]. split; [exact H2|].
  destruct (decoder s); lia.
Qed.

(** *** What a cancellation can do *)

(** X10.  A cancellation can only cut the batch short: whenever [consume]
    returns, its result and the world it leaves are those of the loop of
    [pushRequests] over the units of the first [m] records of the batch,
    for [m] the number of units the pusher received; and when the result is
    nil, [m] is the size of the batch unless the caller's context was
    cancelled. *)
Theorem X10_cancellation_cuts_short (cs : list choice) (s : state)
        (res : option (error E)) :
  run cs (consume records w0) = Some s ->
  returned s = Some res ->
  (length (recC_sent s) <= length records)%nat /\
  pushRequests derived
               (unmarshalRequests (firstn (length (recC_sent s)) records))
               w0
  = (res, W s) /\
  (res = None ->
   length (recC_sent s) = length records \/ In ParentCancel cs).
Proof.
  intros Hrun Hret.
  pose proof (Inv_run _ Hrun) as HI.
  split; [|split].
  - rewrite <- (received_length HI). unfold received.
    rewrite length_firstn. lia.
  - unfold unmarshalRequests. fold (received s).
    rewrite <- (sent_received HI).
    apply outcome_pushRequests; [exact HI|].
    apply returned_outcome. exact Hret.
  - intros ->.
    destruct (consume_result _ Hrun (returned_outcome _ Hret))
      as (_ & _ & _ & [Hrec|Hc]); [left | right; exact Hc].
    rewrite <- (received_length HI), Hrec. reflexivity.
Qed.

End Consume.

(** C9.  For the empty batch, in every state of every run nothing has been
    touched: the world is the one [consume] started in, so the sink has not
    been pushed to and the three counters, the histogram and the log are as
    they were; [consume] can return only nil; no run is longer than five
    steps and every run can be brought to the point where [consume] has
    returned. *)
Theorem C9_empty_batch (ctx : context Ctx) (w0 : world)
        (cs : list choice) (s : state) :
  run ctx cs (consume [] w0) = Some s ->
  W s = w0 /\
  calls w0 s = [] /\
  (forall res, returned s = Some res -> res = None) /\
  (length cs <= 5)%nat /\
  (exists cs' s',
      run ctx (cs ++ cs') (consume [] w0) = Some s' /\
      returned s' = Some None).
Proof.
  intros Hrun.
  pose proof (Inv_run _ _ _ _ Hrun) as HI.
  pose proof HI as [Hs Hd Hc Hk].
  rewrite firstn_nil in Hs. simpl in Hs.
  assert (Hsnoc : forall (h : list parsedRecord) wr,
             recC_sent s <> h ++ [wr]).
  { intros h wr H. rewrite Hs in H. destruct h; discriminate. }
  assert (Hw : W s = w0 /\ forall res, outcome s = Some res -> res = None).
  { unfold outcome.
    destruct (consumer s) as [i|i wr|[e|]|[e|]].
    - rewrite Hs in Hc. simpl in Hc. unfold ret in Hc.
      inversion Hc. split; [reflexivity | discriminate].
    - destruct Hc as (h & Hh & _). destruct (Hsnoc _ _ Hh).
    - destruct Hc as (h & wr & i & w1 & Hh & _). destruct (Hsnoc _ _ Hh).
    - destruct Hc as (_ & (i & Hrun') & _).
      rewrite Hs in Hrun'. simpl in Hrun'. unfold ret in Hrun'.
      inversion Hrun'. split; [reflexivity | congruence].
    - destruct Hc as (h & wr & i & w1 & Hh & _). destruct (Hsnoc _ _ Hh).
    - destruct Hc as (_ & (i & Hrun') & _).
      rewrite Hs in Hrun'. simpl in Hrun'. unfold ret in Hrun'.
      inversion Hrun'. split; [reflexivity | congruence]. }
  destruct Hw as [Hw Hnil].
  split; [exact Hw|]. split; [|split; [|split]].
  - unfold calls. rewrite Hw. apply skipn_all.
  - intros res Hret. apply Hnil. apply returned_outcome. exact Hret.
  - apply (run_bounded _ _ _ _ Hrun).
  - destruct (run_can_finish _ _ _ _ Hrun) as (cs' & s' & _ & Hrun' & Hfin).
    destruct (finished_returned _ Hfin) as [res Hret].
    exists cs', s'. split; [exact Hrun'|].
    pose proof (Inv_run _ _ _ _ Hrun') as HI'.
    pose proof HI' as [Hs' _ Hc' _].
    rewrite firstn_nil in Hs'. simpl in Hs'.
    unfold returned in *.
    destruct (consumer s') as [i|i wr|r|r]; try discriminate.
    inversion Hret; subst r.
    destruct res as [e|]; [|reflexivity].
    destruct Hc' as (h & wr & i & w1 & Hh & _).
    rewrite Hs' in Hh. destruct h; discriminate.
Qed.

(** ** One batch or two *)

(** The index an error of [pushRequests] carries, moved by [n]. *)
Definition shiftIndex (n : Z) (res : option (error E)) : option (error E) :=
  match res with
  | Some (ErrorfConsuming k tenant e) =>
      Some (ErrorfConsuming (k + n)%Z tenant e)
  | _ => res
  end.

(** The index [recordIdx] reaches nothing but itself and the error
    returned. *)
Lemma iteration_shift (cx : context Ctx) (n i : Z) (u : parsedRecord)
      (w : world) :
  iteration cx (i + n)%Z u w
  = (((fst (fst (iteration cx i u w)) + n)%Z,
      shiftIndex n (snd (fst (iteration cx i u w)))),
     snd (iteration cx i u w)).
Proof.
  unfold iteration, bind, ret, timeNow, callPushToStorage, notePush,
    Observe, Inc_totalRequests, Inc_serverErrRequests,
    Inc_clientErrRequests, Log.
  replace (i + n + 1)%Z with (i + 1 + n)%Z by lia.
  destruct (err u) as [e|]; simpl; [reflexivity|].
  destruct (PushToStorage (InjectOrgID cx (tenantID u)) (payload u)
                          (env w)) as [res env'].
  simpl.
  destruct res as [e|]; simpl; [|reflexivity].
  destruct (IsClientError e); simpl; [|reflexivity].
  destruct (shouldLog (InjectOrgID cx (tenantID u)) e
                      (now env' - now (env w))); reflexivity.
Qed.

Lemma rangeLoop_shift (cx : context Ctx) (n : Z) (us : list parsedRecord) :
  forall (i : Z) (w : world),
    rangeLoop cx (i + n)%Z us w
    = (((fst (fst (rangeLoop cx i us w)) + n)%Z,
        shiftIndex n (snd (fst (rangeLoop cx i us w)))),
       snd (rangeLoop cx i us w)).
Proof.
  induction us as [|u us IH]; intros i w; simpl; [reflexivity|].
  unfold bind. rewrite iteration_shift.
  destruct (iteration cx i u w) as [[i' [e|]] w1]; simpl.
  - destruct e; reflexivity.
  - apply IH.
Qed.

(** [pushRequests] over two sequences of units in a row is [pushRequests]
    over the first and then, unless that returned an error, over the second
    in the world the first leaves, the index of its error moved by the
    length of the first. *)
Lemma pushRequests_app (cx : context Ctx) (a b : list parsedRecord)
      (w : world) :
  pushRequests cx (a ++ b) w
  = match fst (pushRequests cx a w) with
    | Some e => pushRequests cx a w
    | None =>
        (shiftIndex (Z.of_nat (length a))
                    (fst (pushRequests cx b (snd (pushRequests cx a w)))),
         snd (pushRequests cx b (snd (pushRequests cx a w))))
    end.
Proof.
  unfold pushRequests, bind, ret. rewrite rangeLoop_app.
  destruct (rangeLoop cx (-1)%Z a w) as [[j [e|]] w1] eqn:Ha; simpl.
  - reflexivity.
  - apply rangeLoop_effects in Ha. destruct Ha as [-> _].
    rewrite rangeLoop_shift.
    destruct (rangeLoop cx (-1)%Z b w1) as [[k o] w2]. reflexivity.
Qed.

Lemma unmarshalRequests_app (a b : list record.t) :
  unmarshalRequests (a ++ b) = unmarshalRequests a ++ unmarshalRequests b.
Proof.
  apply map_app.
Qed.

Lemma unmarshalRequests_length (a : list record.t) :
  length (unmarshalRequests a) = length a.
Proof.
  apply length_map.
Qed.

(** X7.  One batch or two: with the caller's context never cancelled, when
    [consume] on a batch [a] returns nil and [consume] on a batch [b],
    called in the world the first call left, returns [res], then [consume]
    on [a ++ b] leaves the same world as the two calls and returns [res],
    the index in its error moved by the size of [a].  Cutting a batch in
    two changes nothing but the index reported. *)
Theorem X7_one_batch_or_two (ctx : context Ctx) (a b : list record.t)
        (w0 : world) (cs1 cs2 cs3 : list choice) (s1 s2 s3 : state)
        (res2 res3 : option (error E)) :
  uncancelled cs1 ->
  run ctx cs1 (consume a w0) = Some s1 ->
  returned s1 = Some None ->
  uncancelled cs2 ->
  run ctx cs2 (consume b (W s1)) = Some s2 ->
  returned s2 = Some res2 ->
  uncancelled cs3 ->
  run ctx cs3 (consume (a ++ b) w0) = Some s3 ->
  returned s3 = Some res3 ->
  W s3 = W s2 /\ res3 = shiftIndex (Z.of_nat (length a)) res2.
Proof.
  intros Hu1 Hr1 Ht1 Hu2 Hr2 Ht2 Hu3 Hr3 Ht3.
  pose proof (@returned_is_sequential ctx a w0 cs1 s1 _ Hr1 Ht1
                (or_introl Hu1)) as H1.
  pose proof (@returned_is_sequential ctx b (W s1) cs2 s2 _ Hr2 Ht2
                (or_introl Hu2)) as H2.
  pose proof (@returned_is_sequential ctx (a ++ b) w0 cs3 s3 _ Hr3 Ht3
                (or_introl Hu3)) as H3.
  rewrite unmarshalRequests_app, pushRequests_app in H3.
  rewrite H1 in H3. simpl in H3. rewrite H2 in H3. simpl in H3.
  rewrite unmarshalRequests_length in H3.
  inversion H3. auto.
Qed.


End Ingest.

Arguments callArgs {Ctx E WriteRequest} c.

(** ** A concrete consumer

    An instance of the collaborators to run the machine on: requests are
    strings, the clock is a number the sink advances, and errors are named
    by a message. *)

Module Demo.

Definition ctx : context unit := Caller tt.

(** [Unmarshal]: the content "garbage" is malformed; any other content
    decodes to itself. *)
Definition Unmarshal (content : list byte) : string * option (error string) :=
  let s := string_of_list_byte content in
  if String.eqb s "garbage"
  then (EmptyString, Some (Cause "proto: illegal wireType 7"%string))
  else (s, None).

Definition now (clock : Z) : Z := clock.

(** A sink that accepts every request. *)
Definition alwaysNil (_ : context unit) (_ : string) (clock : Z)
  : option (error string) * Z :=
  (None, (clock + 1)%Z).

(** A sink that rejects the request "over-limit" for a reason of the
    tenant's, and accepts the others. *)
Definition clientOnly (_ : context unit) (wr : string) (clock : Z)
  : option (error string) * Z :=
  (if String.eqb wr "over-limit"
   then Some (Cause "client: per-user series limit reached"%string)
   else None,
   (clock + 2)%Z).

(** A sink that, besides, fails on the request "unavailable" for a reason
    of its own. *)
Definition sink (_ : context unit) (wr : string) (clock : Z)
  : option (error string) * Z :=
  (if String.eqb wr "over-limit"
   then Some (Cause "client: per-user series limit reached"%string)
   else if String.eqb wr "unavailable"
        then Some (Cause "server: TSDB is not available"%string)
        else None,
   (clock + 3)%Z).

Definition IsClientError (e : error string) : bool :=
  String.prefix "client" (rootCause e).

(** A policy that keeps the tenant "quiet" out of the log. *)
Definition shouldLog (c : context unit) (_ : error string) (_ : Z) : bool :=
  match ExtractOrgID c with
  | Some tenant => negb (String.eqb tenant "quiet")
  | None => true
  end.

Definition w0 : world unit string string Z :=
  {| env := 0%Z; pushed := []; processingTimeSeconds := [];
     clientErrRequests := 0; serverErrRequests := 0; totalRequests := 0;
     l := [] |}.

Definition rec (tenant content : string) : record.t :=
  record.mk tenant (list_byte_of_string content).

(** [consume] on [records] under the schedule [cs], against the sink
    [push]. *)
Definition consumeWith
           (push : context unit -> string -> Z -> option (error string) * Z)
           (cs : list choice) (records : list record.t)
  : option (state unit string string Z) :=
  run Unmarshal push now IsClientError shouldLog ctx cs (consume records w0).

(** The scenario of the specification: the second record is malformed. *)
Definition batch3 : list record.t :=
  [rec "A" "validA"; rec "B" "garbage"; rec "A" "validC"].

Definition valid3 : list record.t :=
  [rec "A" "validA"; rec "B" "validB"; rec "A" "validC"].

(** A schedule for three records that decodes each record while the one
    before it is being pushed. *)
Definition pipelined3 : list choice :=
  [DecUnmarshal; Handoff; DecUnmarshal; PushBody; Handoff; DecUnmarshal;
   PushBody; Handoff; DecExhausted; PushBody; RangeClosed; ConsumeReturn].

(** Three records that decode, under a sink that rejects the second and
    the third for a reason of their tenants; the tenant of the second is
    kept out of the log. *)
Definition limited4 : list record.t :=
  [rec "A" "validA"; rec "quiet" "over-limit"; rec "B" "over-limit";
   rec "A" "validC"].

(** One record after the other: unmarshal, hand over, push. *)
Definition sequential4 : list choice :=
  [DecUnmarshal; Handoff; PushBody; DecUnmarshal; Handoff; PushBody;
   DecUnmarshal; Handoff; PushBody; DecUnmarshal; Handoff; PushBody;
   DecExhausted; RangeClosed; ConsumeReturn].

(** The second record is malformed and the push of the third fails in the
    sink. *)
Definition failing4 : list record.t :=
  [rec "A" "validA"; rec "B" "garbage"; rec "C" "unavailable";
   rec "A" "validC"].

(** The run of [failing4] in which the decoder has the fourth unit ready
    when the push of the third fails, and finds the context cancelled. *)
Definition aborted4 : list choice :=
  [DecUnmarshal; Handoff; PushBody; DecUnmarshal; Handoff; PushBody;
   DecUnmarshal; Handoff; DecUnmarshal; PushBody; ConsumeReturn; DecDone].

(** One record, and a caller's context cancelled before the decoder
    offers its unit. *)
Definition batch1 : list record.t := [rec "A" "validA"].

Definition cancelled1 : list choice :=
  [ParentCancel; DecUnmarshal; DecDone; RangeClosed; ConsumeReturn].

(** The malformed record first, then last. *)
Definition badFirst : list record.t := [rec "B" "garbage"; rec "A" "validA"].

Definition badLast : list record.t := [rec "A" "validA"; rec "B" "garbage"].

Definition sequential2 : list choice :=
  [DecUnmarshal; Handoff; PushBody; DecUnmarshal; Handoff; PushBody;
   DecExhausted; RangeClosed; ConsumeReturn].

(** The push of the first record fails in the sink. *)
Definition failFirst3 : list record.t :=
  [rec "A" "unavailable"; rec "B" "garbage"; rec "A" "validC"].

Definition aborted1 : list choice :=
  [DecUnmarshal; Handoff; PushBody; ConsumeReturn; DecUnmarshal; DecDone].

(** The caller's context is cancelled while the first push, which the sink
    rejects, is under way. *)
Definition limited2 : list record.t :=
  [rec "A" "over-limit"; rec "A" "validC"].

Definition cancelledAfterFirst : list choice :=
  [DecUnmarshal; Handoff; ParentCancel; PushBody; DecUnmarshal; DecDone;
   RangeClosed; ConsumeReturn].

(** The sink rejects the first record; the second is malformed. *)
Definition limitedThenBad : list record.t :=
  [rec "A" "over-limit"; rec "B" "garbage"].

(** The log line of the decode failure of the content "garbage". *)
Definition garbageEntry : logEntry string :=
  {| lvl := LevelError;
     keyvals :=
       [("msg"%string,
         VStr "failed to parse write request; skipping"%string);
        ("err"%string,
         VErr (Wrap (Cause "proto: illegal wireType 7"%string)
                    "parsing ingest consumer write request"%string))] |}.

End Demo.

(** ** The properties at work on the concrete consumer *)

Lemma clientOnly_no_server_error :
  forall (c : context unit) (wr : string) (e : Z) (e' : error string),
    fst (Demo.clientOnly c wr e) = Some e' -> Demo.IsClientError e' = true.
Proof.
  intros c wr e e'. unfold Demo.clientOnly. simpl.
  destruct (String.eqb wr "over-limit"); intros H; inversion H.
  reflexivity.
Qed.

Lemma In_valid3_decodes :
  forall r, In r Demo.valid3 -> decodes Demo.Unmarshal r = true.
Proof.
  intros r [<-|[<-|[<-|[]]]]; reflexivity.
Qed.

Lemma uncancelled_pipelined3 : uncancelled Demo.pipelined3.
Proof.
  unfold uncancelled, Demo.pipelined3. simpl. intuition discriminate.
Qed.

Lemma uncancelled_sequential4 : uncancelled Demo.sequential4.
Proof.
  unfold uncancelled, Demo.sequential4. simpl. intuition discriminate.
Qed.

(** Witness of C1: three records that decode, a sink that accepts them, a
    schedule that overlaps decoding and pushing. *)
Lemma C1_witness :
  exists s,
    Demo.consumeWith Demo.alwaysNil Demo.pipelined3 Demo.valid3 = Some s /\
    returned s = Some None /\
    map callArgs (calls Demo.w0 s)
    = [(InjectOrgID (WithCancelCause (Caller tt)) "A"%string,
        "validA"%string);
       (InjectOrgID (WithCancelCause (Caller tt)) "B"%string,
        "validB"%string);
       (InjectOrgID (WithCancelCause (Caller tt)) "A"%string,
        "validC"%string)].
Proof.
  eexists. split; [vm_compute; reflexivity|].
  split; [reflexivity|].
  match goal with
  | |- context [calls _ ?s] =>
      destruct (@C1_every_record_pushed unit string string Z
                  Demo.Unmarshal Demo.alwaysNil Demo.now Demo.IsClientError
                  Demo.shouldLog Demo.ctx Demo.valid3 Demo.w0
                  Demo.pipelined3 s
                  In_valid3_decodes
                  (fun _ _ _ => eq_refl)
                  uncancelled_pipelined3
                  ltac:(vm_compute; reflexivity))
        as (_ & _ & H)
  end.
  destruct (H None eq_refl) as (_ & _ & _ & Hargs & _).
  exact Hargs.
Defined.

(** C1 as stated fails when the caller's context is cancelled: the one
    record decodes and the sink accepts everything, yet the decoder leaves
    by [<-done], [consume] returns nil and nothing has been pushed. *)
Lemma C1_counterexample :
  (forall r, In r Demo.batch1 -> decodes Demo.Unmarshal r = true) /\
  (forall c wr e, fst (Demo.alwaysNil c wr e) = None) /\
  exists s,
    Demo.consumeWith Demo.alwaysNil Demo.cancelled1 Demo.batch1 = Some s /\
    finished s = true /\
    returned s = Some None /\
    length Demo.batch1 = 1%nat /\
    pushed (W s) = [].
Proof.
  split; [intros r [<-|[]]; reflexivity|].
  split; [reflexivity|].
  eexists. split; [vm_compute; reflexivity|].
  repeat split.
Qed.


(** Witness of C3: the scenario of the specification, against a sink that
    fails for a reason of its own on a request this batch does not hold.
    The second of three records is malformed and no push of the run is
    classified as a server error; the other two records are pushed, the
    total counter stands at 2 and the log holds the one line of the decode
    failure. *)
Lemma C3_witness :
  exists s,
    Demo.consumeWith Demo.sink Demo.pipelined3 Demo.batch3 = Some s /\
    returned s = Some None /\
    option_map Demo.IsClientError
               (fst (Demo.sink Demo.ctx "unavailable"%string 0%Z))
    = Some false /\
    fst (pushRequests Demo.sink Demo.now Demo.IsClientError Demo.shouldLog
                      (derived Demo.ctx)
                      (unmarshalRequests Demo.Unmarshal Demo.batch3) Demo.w0)
    = None /\
    Forall (fun c => serverCall Demo.IsClientError c = false)
           (calls Demo.w0 s) /\
    (exists cs' s',
        uncancelled (Demo.pipelined3 ++ cs') /\
        Demo.consumeWith Demo.sink (Demo.pipelined3 ++ cs') Demo.batch3
        = Some s' /\
        returned s' = Some None) /\
    exists e,
      snd (Demo.Unmarshal (record.content (Demo.rec "B" "garbage")))
      = Some e /\
      length (calls Demo.w0 s) = 2%nat /\
      map callArgs (calls Demo.w0 s)
      = [(InjectOrgID (WithCancelCause (Caller tt)) "A"%string,
          "validA"%string);
         (InjectOrgID (WithCancelCause (Caller tt)) "A"%string,
          "validC"%string)] /\
      totalRequests (W s) = 2%nat /\
      filter (atLevel LevelError) (l (W s))
      = [parseFailedEntry
           (Wrap e "parsing ingest consumer write request"%string)].
Proof.
  eexists. split; [vm_compute; reflexivity|].
  split; [reflexivity|].
  split; [reflexivity|].
  assert (Hnil : fst (pushRequests Demo.sink Demo.now Demo.IsClientError
                                   Demo.shouldLog (derived Demo.ctx)
                                   (unmarshalRequests Demo.Unmarshal
                                                      Demo.batch3)
                                   Demo.w0)
                 = None)
    by (vm_compute; reflexivity).
  split; [exact Hnil|].
  assert (Hothers : forall j r,
             nth_error Demo.batch3 j = Some r -> j <> 1%nat ->
             decodes Demo.Unmarshal r = true).
  { intros [|[|[|j]]] r Hj Hne; simpl in Hj;
      try (inversion Hj; subst r; reflexivity);
      try (exfalso; apply Hne; reflexivity).
    destruct j; discriminate. }
  match goal with
  | |- Forall ?P (calls _ ?s) /\ _ =>
      assert (HF : Forall P (calls Demo.w0 s))
        by (vm_compute; repeat constructor);
      split; [exact HF|];
      destruct (@C3_undecodable_record_skipped unit string string Z
                  Demo.Unmarshal Demo.sink Demo.now Demo.IsClientError
                  Demo.shouldLog Demo.ctx Demo.batch3 Demo.w0
                  1%nat (Demo.rec "B" "garbage") Demo.pipelined3 s
                  eq_refl eq_refl Hothers
                  uncancelled_pipelined3
                  ltac:(vm_compute; reflexivity))
        as (e & He & _ & _ & Hex & H)
  end.
  split; [exact (Hex Hnil)|].
  exists e. split; [exact He|].
  destruct (H None eq_refl HF) as (_ & Hlen & Hargs & Htot & _ & Hlog).
  split; [exact Hlen|]. split; [exact Hargs|].
  split; [exact Htot | exact Hlog].
Defined.

(** C3 as stated fails in three ways.  The log line of a decode failure
    carries the message and the wrapped error only: it is the same line
    whether the malformed record is first or last in the batch, so it does
    not tell the index.  When the push of another record fails in the sink,
    fewer than [N - 1] records are pushed and the malformed record is never
    reached.  And when the caller's context is cancelled the same happens
    with no error at all. *)
Lemma C3_counterexample :
  (exists s0 s1,
      Demo.consumeWith Demo.clientOnly Demo.sequential2 Demo.badFirst
      = Some s0 /\
      Demo.consumeWith Demo.clientOnly Demo.sequential2 Demo.badLast
      = Some s1 /\
      returned s0 = Some None /\
      returned s1 = Some None /\
      map (decodes Demo.Unmarshal) Demo.badFirst = [false; true] /\
      map (decodes Demo.Unmarshal) Demo.badLast = [true; false] /\
      l (W s0) = [Demo.garbageEntry] /\
      l (W s1) = [Demo.garbageEntry]) /\
  (exists s,
      Demo.consumeWith Demo.sink Demo.aborted1 Demo.failFirst3 = Some s /\
      finished s = true /\
      returned s
      = Some (Some (ErrorfConsuming 0 "A"%string
                      (Cause "server: TSDB is not available"%string))) /\
      map (decodes Demo.Unmarshal) Demo.failFirst3 = [true; false; true] /\
      length (pushed (W s)) = 1%nat /\
      l (W s) = []) /\
  (exists s,
      Demo.consumeWith Demo.clientOnly Demo.cancelled1 Demo.badLast
      = Some s /\
      finished s = true /\
      returned s = Some None /\
      length (pushed (W s)) = 0%nat /\
      l (W s) = []).
Proof.
  split; [|split].
  - eexists. eexists.
    split; [vm_compute; reflexivity|].
    split; [vm_compute; reflexivity|].
    repeat split.
  - eexists. split; [vm_compute; reflexivity|]. repeat split.
  - eexists. split; [vm_compute; reflexivity|]. repeat split.
Qed.

(** Witness of C4: the sink rejects the second and the third of four
    records for a reason of their tenants; it fails for a reason of its own
    on a request this batch does not hold, and no push of the run is
    classified as a server error.  All four are pushed, the client-error
    counter stands at 2, and the one warning is for the tenant the policy
    does not keep out of the log. *)
Lemma C4_witness :
  exists s,
    Demo.consumeWith Demo.sink Demo.sequential4 Demo.limited4 = Some s /\
    returned s = Some None /\
    option_map Demo.IsClientError
               (fst (Demo.sink Demo.ctx "unavailable"%string 0%Z))
    = Some false /\
    fst (pushRequests Demo.sink Demo.now Demo.IsClientError Demo.shouldLog
                      (derived Demo.ctx)
                      (unmarshalRequests Demo.Unmarshal Demo.limited4)
                      Demo.w0)
    = None /\
    Forall (fun c => serverCall Demo.IsClientError c = false)
           (calls Demo.w0 s) /\
    (exists cs' s',
        uncancelled (Demo.sequential4 ++ cs') /\
        Demo.consumeWith Demo.sink (Demo.sequential4 ++ cs') Demo.limited4
        = Some s' /\
        returned s' = Some None) /\
    map callArgs (calls Demo.w0 s)
    = map (pushArgs Demo.Unmarshal Demo.ctx) Demo.limited4 /\
    clientErrRequests (W s) = 2%nat /\
    serverErrRequests (W s) = 0%nat /\
    filter (atLevel LevelWarn) (l (W s))
    = [clientErrorEntry
         (Cause "client: per-user series limit reached"%string)
         "B"%string].
Proof.
  eexists. split; [vm_compute; reflexivity|].
  split; [reflexivity|].
  split; [reflexivity|].
  assert (Hnil : fst (pushRequests Demo.sink Demo.now Demo.IsClientError
                                   Demo.shouldLog (derived Demo.ctx)
                                   (unmarshalRequests Demo.Unmarshal
                                                      Demo.limited4)
                                   Demo.w0)
                 = None)
    by (vm_compute; reflexivity).
  split; [exact Hnil|].
  match goal with
  | |- Forall ?P (calls _ ?s) /\ _ =>
      assert (HF : Forall P (calls Demo.w0 s))
        by (vm_compute; repeat constructor);
      split; [exact HF|];
      destruct (@C4_client_error_continues unit string string Z
                  Demo.Unmarshal Demo.sink Demo.now Demo.IsClientError
                  Demo.shouldLog Demo.ctx Demo.limited4 Demo.w0
                  Demo.sequential4 s
                  uncancelled_sequential4
                  ltac:(vm_compute; reflexivity))
        as (_ & Hex & H)
  end.
  split; [exact (Hex Hnil)|].
  destruct (H None eq_refl HF) as (_ & Hargs & Hcl & Hsv & Hw & _).
  split; [exact Hargs|]. split; [exact Hcl|].
  split; [exact Hsv | exact Hw].
Defined.

(** C4 as stated fails when the caller's context is cancelled: the push at
    index 0 returns a client error, no push returns a server error, both
    records decode, but the decoder leaves by [<-done] and the record at
    index 1 is never pushed.  It also fails, with the context left alone,
    when the record at index 1 does not decode: it is skipped, not
    pushed. *)
Lemma C4_counterexample :
  (forall c wr e e',
      fst (Demo.clientOnly c wr e) = Some e' ->
      Demo.IsClientError e' = true) /\
  (map (decodes Demo.Unmarshal) Demo.limited2 = [true; true] /\
   exists s,
     Demo.consumeWith Demo.clientOnly Demo.cancelledAfterFirst Demo.limited2
     = Some s /\
     finished s = true /\
     returned s = Some None /\
     clientErrRequests (W s) = 1%nat /\
     map callArgs (pushed (W s))
     = [(InjectOrgID (WithCancelCause (Caller tt)) "A"%string,
         "over-limit"%string)]) /\
  (exists s,
      Demo.consumeWith Demo.clientOnly Demo.sequential2 Demo.limitedThenBad
      = Some s /\
      finished s = true /\
      returned s = Some None /\
      clientErrRequests (W s) = 1%nat /\
      map callArgs (pushed (W s))
      = [(InjectOrgID (WithCancelCause (Caller tt)) "A"%string,
          "over-limit"%string)]).
Proof.
  split; [exact clientOnly_no_server_error|].
  split; [split; [reflexivity|]|].
  - eexists. split; [vm_compute; reflexivity|]. repeat split.
  - eexists. split; [vm_compute; reflexivity|]. repeat split.
Qed.

(** Witness of C5: the run in which the second record is skipped and the
    push of the third aborts the batch.  Two pushes were made, the failed
    one included; the counter stands at 2 and the histogram holds two
    observations; one unit was skipped and one record never consumed. *)
Lemma C5_witness :
  exists s,
    Demo.consumeWith Demo.sink Demo.aborted4 Demo.failing4 = Some s /\
    totalRequests (W s) = 2%nat /\
    processingTimeSeconds (W s) = [3%Z; 3%Z] /\
    (length (calls Demo.w0 s)
     + length (filter (fun r => negb (decodes Demo.Unmarshal r))
                      (received Demo.failing4 s))
     + length (remaining Demo.failing4 s)
     = 4)%nat.
Proof.
  eexists. split; [vm_compute; reflexivity|].
  match goal with
  | |- context [W ?s] =>
      destruct (@C5_total_counts_pushes unit string string Z
                  Demo.Unmarshal Demo.sink Demo.now Demo.IsClientError
                  Demo.shouldLog Demo.ctx Demo.failing4 Demo.w0
                  Demo.aborted4 s
                  ltac:(vm_compute; reflexivity))
        as (_ & _ & _ & Htot & Hobs & H)
  end.
  split; [exact Htot|]. split; [exact Hobs|].
  exact (proj1 (H _ eq_refl)).
Defined.

(** C5 as stated fails when the caller's context is cancelled: the one
    record decodes and no push fails, so the batch size less the units
    skipped and less the units lost to a server error is 1, yet when
    [consume] returns the total counter stands at 0. *)
Lemma C5_counterexample :
  exists s,
    Demo.consumeWith Demo.alwaysNil Demo.cancelled1 Demo.batch1 = Some s /\
    finished s = true /\
    returned s = Some None /\
    map (decodes Demo.Unmarshal) Demo.batch1 = [true] /\
    serverErrRequests (W s) = 0%nat /\
    totalRequests (W s) = 0%nat.
Proof.
  eexists. split; [vm_compute; reflexivity|]. repeat split.
Qed.


(** Witness of C7: the run in which the push of the third record fails.
    [consume] has returned, the derived context is cancelled with the cause
    of the deferred [cancel], and the decoder, which held the fourth unit,
    has left by [<-done]. *)
Lemma C7_witness :
  exists s,
    Demo.consumeWith Demo.sink Demo.aborted4 Demo.failing4 = Some s /\
    finished s = true /\
    ctxCause s = Some DoneConsumingRecords.
Proof.
  eexists. split; [vm_compute; reflexivity|].
  split; [reflexivity|].
  match goal with
  | |- ctxCause ?s = _ =>
      destruct (@C7_cancellation unit string string Z
                  Demo.Unmarshal Demo.sink Demo.now Demo.IsClientError
                  Demo.shouldLog Demo.ctx Demo.failing4 Demo.w0
                  Demo.aborted4 s
                  ltac:(vm_compute; reflexivity))
        as (H & _)
  end.
  apply (H _ eq_refl).
  unfold uncancelled, Demo.aborted4. simpl. intuition discriminate.
Defined.

(** Witness of C8: three steps into the pipelined schedule the pusher is
    in the body of its loop for the first unit while the decoder offers the
    second: one unit received, one ahead. *)
Lemma C8_witness :
  exists s,
    Demo.consumeWith Demo.alwaysNil [DecUnmarshal; Handoff; DecUnmarshal]
                     Demo.valid3
    = Some s /\
    decoder s
    = DSelect (parseRecord Demo.Unmarshal (Demo.rec "B" "validB"))
              [Demo.rec "A" "validC"] /\
    (length (recC_sent s) + 1 + 1 = 3)%nat /\
    (length (processed s) + 1 = length (recC_sent s))%nat.
Proof.
  eexists. split; [vm_compute; reflexivity|].
  split; [reflexivity|].
  match goal with
  | |- context [processed ?s] =>
      destruct (@C8_pipeline_depth_one unit string string Z
                  Demo.Unmarshal Demo.alwaysNil Demo.now Demo.IsClientError
                  Demo.shouldLog Demo.ctx Demo.valid3 Demo.w0
                  [DecUnmarshal; Handoff; DecUnmarshal] s
                  ltac:(vm_compute; reflexivity))
        as (Hd & Hp & _)
  end.
  split; [exact Hd | exact Hp].
Defined.

(** Witness of C9: the empty batch, run to its end. *)
Lemma C9_witness :
  exists s,
    Demo.consumeWith Demo.alwaysNil [DecExhausted; RangeClosed; ConsumeReturn]
                     []
    = Some s /\
    returned s = Some None /\
    W s = Demo.w0.
Proof.
  eexists. split; [vm_compute; reflexivity|].
  split; [reflexivity|].
  match goal with
  | |- W ?s = _ =>
      exact (proj1 (@C9_empty_batch unit string string Z
                      Demo.Unmarshal Demo.alwaysNil Demo.now
                      Demo.IsClientError Demo.shouldLog Demo.ctx Demo.w0
                      [DecExhausted; RangeClosed; ConsumeReturn] s
                      ltac:(vm_compute; reflexivity)))
  end.
Defined.

(** Witness of C10: the second record of four is malformed and never
    pushed; the push of the third, the second push made, fails, and the
    error carries the index 2. *)
Lemma C10_witness :
  exists s,
    Demo.consumeWith Demo.sink Demo.aborted4 Demo.failing4 = Some s /\
    exists k r e0 c0 c,
      nth_error Demo.failing4 k = Some r /\
      decodes Demo.Unmarshal r = true /\
      ErrorfConsuming 2 "C"%string
                      (Cause "server: TSDB is not available"%string)
      = ErrorfConsuming (Z.of_nat k) (record.tenantID r) e0 /\
      Demo.IsClientError e0 = false /\
      calls Demo.w0 s = c0 ++ [c] /\
      callArgs c = pushArgs Demo.Unmarshal Demo.ctx r /\
      callErr c = Some e0 /\
      length (recC_sent s) = S k /\
      length (calls Demo.w0 s)
      = length (filter (decodes Demo.Unmarshal)
                       (firstn (S k) Demo.failing4)).
Proof.
  eexists. split; [vm_compute; reflexivity|].
  match goal with
  | |- context [recC_sent ?s] =>
      exact (proj2 (@C10_index_is_batch_position unit string string Z
                      Demo.Unmarshal Demo.sink Demo.now
                      Demo.IsClientError Demo.shouldLog Demo.ctx
                      Demo.failing4 Demo.w0 Demo.aborted4 s
                      ltac:(vm_compute; reflexivity))
                   _ eq_refl)
  end.
Defined.

(** ** The further properties at work on the concrete consumer *)

(** A malformed record, then one the sink rejects for a reason of the
    tenant's, between two that go through. *)
Definition mixed4 : list record.t :=
  [Demo.rec "A" "validA"; Demo.rec "B" "garbage";
   Demo.rec "B" "over-limit"; Demo.rec "A" "validC"].

(** [aborted4] up to the return of [consume]: the decoder still holds the
    fourth unit. *)
Definition returned4 : list choice :=
  [DecUnmarshal; Handoff; PushBody; DecUnmarshal; Handoff; PushBody;
   DecUnmarshal; Handoff; DecUnmarshal; PushBody; ConsumeReturn].

(** The first record of [failing4], and the three behind it. *)
Definition head1 : list record.t := [Demo.rec "A" "validA"].

Definition tail3 : list record.t :=
  [Demo.rec "B" "garbage"; Demo.rec "C" "unavailable";
   Demo.rec "A" "validC"].

Definition sequential1 : list choice :=
  [DecUnmarshal; Handoff; PushBody; DecExhausted; RangeClosed;
   ConsumeReturn].

Definition abortedTail3 : list choice :=
  [DecUnmarshal; Handoff; PushBody; DecUnmarshal; Handoff; DecUnmarshal;
   PushBody; ConsumeReturn; DecDone].




Lemma uncancelled_sequential1 : uncancelled sequential1.
Proof.
  unfold uncancelled, sequential1. simpl. intuition discriminate.
Qed.

Lemma uncancelled_abortedTail3 : uncancelled abortedTail3.
Proof.
  unfold uncancelled, abortedTail3. simpl. intuition discriminate.
Qed.

Lemma uncancelled_aborted4 : uncancelled Demo.aborted4.
Proof.
  unfold uncancelled, Demo.aborted4. simpl. intuition discriminate.
Qed.

(** Witness of X1: the run of four records in which the push of the third
    fails; what [consume] returns and leaves is what the loop over the four
    units returns and leaves. *)
Lemma X1_witness :
  exists s,
    Demo.consumeWith Demo.sink Demo.aborted4 Demo.failing4 = Some s /\
    pushRequests Demo.sink Demo.now Demo.IsClientError Demo.shouldLog
                 (derived Demo.ctx)
                 (unmarshalRequests Demo.Unmarshal Demo.failing4) Demo.w0
    = (Some (ErrorfConsuming 2 "C"%string
               (Cause "server: TSDB is not available"%string)),
       W s).
Proof.
  eexists. split; [vm_compute; reflexivity|].
  match goal with
  | |- context [W ?s] =>
      exact (@X1_consume_is_sequential unit string string Z
               Demo.Unmarshal Demo.sink Demo.now Demo.IsClientError
               Demo.shouldLog Demo.ctx Demo.failing4 Demo.w0
               Demo.aborted4 s _
               ltac:(vm_compute; reflexivity) eq_refl
               (or_intror (ex_intro _ _ eq_refl)))
  end.
Defined.

(** Witness of X2: four pushes, two of them rejected; the clock stands at
    8, two ticks per push. *)
Lemma X2_witness :
  exists s,
    Demo.consumeWith Demo.clientOnly Demo.sequential4 Demo.limited4
    = Some s /\
    env (W s) = 8%Z /\
    sinkTrace Demo.clientOnly Demo.now
              (map callArgs (calls Demo.w0 s)) (env Demo.w0)
    = (calls Demo.w0 s, env (W s)).
Proof.
  eexists. split; [vm_compute; reflexivity|].
  split; [reflexivity|].
  match goal with
  | |- context [W ?s] =>
      exact (proj1 (@X2_sink_sees_only_the_pushes unit string string Z
                      Demo.Unmarshal Demo.clientOnly Demo.now
                      Demo.IsClientError Demo.shouldLog Demo.ctx
                      Demo.limited4 Demo.w0 Demo.sequential4 s
                      ltac:(vm_compute; reflexivity)))
  end.
Defined.

(** Witness of X3: the log of [mixed4] is the line of the decode failure
    and then the warning for the rejected push, in that order. *)
Lemma X3_witness :
  exists s,
    Demo.consumeWith Demo.clientOnly Demo.sequential4 mixed4 = Some s /\
    l (W s)
    = l Demo.w0
        ++ [Demo.garbageEntry;
            clientErrorEntry
              (Cause "client: per-user series limit reached"%string)
              "B"%string].
Proof.
  eexists. split; [vm_compute; reflexivity|].
  match goal with
  | |- context [W ?s] =>
      exact (proj1 (@X3_log_follows_the_batch unit string string Z
                      Demo.Unmarshal Demo.clientOnly Demo.now
                      Demo.IsClientError Demo.shouldLog Demo.ctx
                      mixed4 Demo.w0 Demo.sequential4 s
                      ltac:(vm_compute; reflexivity)))
  end.
Defined.

(** Witness of X4: in the aborted run of [failing4] the server-error
    counter stands at 1 and the client-error counter at 0. *)
Lemma X4_witness :
  exists s,
    Demo.consumeWith Demo.sink Demo.aborted4 Demo.failing4 = Some s /\
    clientErrRequests (W s) = 0%nat /\
    serverErrRequests (W s) = 1%nat.
Proof.
  eexists. split; [vm_compute; reflexivity|].
  match goal with
  | |- context [W ?s] =>
      destruct (@X4_failed_pushes_counted_once unit string string Z
                  Demo.Unmarshal Demo.sink Demo.now Demo.IsClientError
                  Demo.shouldLog Demo.ctx Demo.failing4 Demo.w0
                  Demo.aborted4 s
                  ltac:(vm_compute; reflexivity))
        as (H1 & H2 & _)
  end.
  split; [exact H1 | exact H2].
Defined.

(** Witness of X5: [consume] has returned the error of the third push while
    the decoder holds the fourth unit; the decoder then leaves by [<-done]
    and the world stays. *)
Lemma X5_witness :
  exists s s2,
    Demo.consumeWith Demo.sink returned4 Demo.failing4 = Some s /\
    run Demo.Unmarshal Demo.sink Demo.now Demo.IsClientError Demo.shouldLog
        Demo.ctx [DecDone] s
    = Some s2 /\
    finished s = false /\
    finished s2 = true /\
    W s2 = W s.
Proof.
  eexists. eexists. split; [vm_compute; reflexivity|].
  split; [vm_compute; reflexivity|].
  split; [reflexivity|]. split; [reflexivity|].
  match goal with
  | |- W ?s2 = W ?s =>
      exact (proj1 (@X5_after_return unit string string Z
                      Demo.Unmarshal Demo.sink Demo.now
                      Demo.IsClientError Demo.shouldLog Demo.ctx
                      Demo.failing4 Demo.w0 returned4 [DecDone] s s2 _
                      ltac:(vm_compute; reflexivity) eq_refl
                      ltac:(vm_compute; reflexivity)))
  end.
Defined.

(** Witness of X6: three records that decode, a sink that accepts them, the
    caller's context cancelled after the first: [consume] returns nil with
    one push made and two records dropped. *)
Lemma X6_witness :
  exists s,
    run Demo.Unmarshal Demo.alwaysNil Demo.now Demo.IsClientError
        Demo.shouldLog Demo.ctx (truncatedAt 1)
        (consume Demo.valid3 Demo.w0)
    = Some s /\
    finished s = true /\
    returned s = Some None /\
    W s
    = snd (pushRequests Demo.alwaysNil Demo.now Demo.IsClientError
                        Demo.shouldLog (derived Demo.ctx)
                        (unmarshalRequests Demo.Unmarshal
                                           (firstn 1 Demo.valid3))
                        Demo.w0) /\
    recC_sent s
    = unmarshalRequests Demo.Unmarshal (firstn 1 Demo.valid3) /\
    length (remaining Demo.valid3 s) = (length Demo.valid3 - 1)%nat.
Proof.
  apply (@X6_cancellation_is_silent unit string string Z
           Demo.Unmarshal Demo.alwaysNil Demo.now Demo.IsClientError
           Demo.shouldLog Demo.ctx Demo.valid3 Demo.w0 1%nat).
  - simpl. lia.
  - vm_compute. reflexivity.
Defined.

(** Witness of X7: [failing4] in one call, and in two, its first record and
    then the other three; the error carries index 2 in the first case and
    index 1 in the second, and the worlds agree. *)
Lemma X7_witness :
  exists s1 s2 s3,
    Demo.consumeWith Demo.sink sequential1 head1 = Some s1 /\
    run Demo.Unmarshal Demo.sink Demo.now Demo.IsClientError Demo.shouldLog
        Demo.ctx abortedTail3 (consume tail3 (W s1))
    = Some s2 /\
    Demo.consumeWith Demo.sink Demo.aborted4 (head1 ++ tail3) = Some s3 /\
    returned s2
    = Some (Some (ErrorfConsuming 1 "C"%string
                    (Cause "server: TSDB is not available"%string))) /\
    returned s3
    = Some (Some (ErrorfConsuming 2 "C"%string
                    (Cause "server: TSDB is not available"%string))) /\
    W s3 = W s2.
Proof.
  eexists. eexists. eexists.
  split; [vm_compute; reflexivity|].
  split; [vm_compute; reflexivity|].
  split; [vm_compute; reflexivity|].
  split; [reflexivity|]. split; [reflexivity|].
  match goal with
  | |- W ?s3 = W ?s2 =>
      exact (proj1 (@X7_one_batch_or_two unit string string Z
                      Demo.Unmarshal Demo.sink Demo.now
                      Demo.IsClientError Demo.shouldLog Demo.ctx
                      head1 tail3 Demo.w0
                      sequential1 abortedTail3 Demo.aborted4
                      _ s2 s3 _ _
                      uncancelled_sequential1
                      ltac:(vm_compute; reflexivity) eq_refl
                      uncancelled_abortedTail3
                      ltac:(vm_compute; reflexivity) eq_refl
                      uncancelled_aborted4
                      ltac:(vm_compute; reflexivity) eq_refl))
  end.
Defined.


(** Witness of X9: in the aborted run of [failing4] four records were
    unmarshalled, three units received, and the fourth dropped at
    [<-done]. *)
Lemma X9_witness :
  exists s,
    Demo.consumeWith Demo.sink Demo.aborted4 Demo.failing4 = Some s /\
    countOf isDecUnmarshal Demo.aborted4 = 4%nat /\
    length (recC_sent s) = 3%nat /\
    (countOf isDecUnmarshal Demo.aborted4 <= length (recC_sent s) + 1)%nat.
Proof.
  eexists. split; [vm_compute; reflexivity|].
  split; [reflexivity|]. split; [reflexivity|].
  match goal with
  | |- context [recC_sent ?s] =>
      exact (proj2 (proj2 (@X9_one_unmarshal_in_vain unit string string Z
                      Demo.Unmarshal Demo.sink Demo.now
                      Demo.IsClientError Demo.shouldLog Demo.ctx
                      Demo.failing4 Demo.w0 Demo.aborted4 s
                      ltac:(vm_compute; reflexivity))))
  end.
Defined.

(** Witness of X10: the caller's context cancelled while the first of two
    pushes is under way; [consume] returns what the loop over the first
    unit alone returns. *)
Lemma X10_witness :
  exists s,
    Demo.consumeWith Demo.clientOnly Demo.cancelledAfterFirst Demo.limited2
    = Some s /\
    length (recC_sent s) = 1%nat /\
    pushRequests Demo.clientOnly Demo.now Demo.IsClientError Demo.shouldLog
                 (derived Demo.ctx)
                 (unmarshalRequests Demo.Unmarshal
                    (firstn (length (recC_sent s)) Demo.limited2))
                 Demo.w0
    = (None, W s).
Proof.
  eexists. split; [vm_compute; reflexivity|].
  split; [reflexivity|].
  match goal with
  | |- context [W ?s] =>
      exact (proj1 (proj2 (@X10_cancellation_cuts_short unit string string Z
                      Demo.Unmarshal Demo.clientOnly Demo.now
                      Demo.IsClientError Demo.shouldLog Demo.ctx
                      Demo.limited2 Demo.w0 Demo.cancelledAfterFirst s _
                      ltac:(vm_compute; reflexivity) eq_refl)))
  end.
Defined.
